(** * Move legality of the chess board in [src/App.tsx]

    A shallow embedding of [isValidMove], [isPathClear] and
    [getPossibleMoves], together with the properties of the move-legality
    engine.  Coordinates are JavaScript numbers holding integers and are
    modelled in [Z]; the board, a component state captured by the three
    closures in the source, is passed explicitly.  The click handler
    [handleSquareClick] and the class name computed by [renderSquare] are
    embedded over the record of the four state cells of the component. *)

From Stdlib Require Import ZArith Lia List Bool.
From Stdlib Require String.
Import String.StringSyntax.
Delimit Scope string_scope with string.
From stdpp Require Import base list.
Import ListNotations.
Open Scope Z_scope.

(** ** Data model *)

(** [type PieceType = 'king' | ... | 'pawn' | null]: the tags are the
    constructors below, the [null] alternative is the [None] of the [type]
    field of [Piece]. *)
Inductive PieceType : Type := king | queen | rook | bishop | knight | pawn.

Inductive PieceColor : Type := white | black.

Record Piece : Type := { type : option PieceType; color : PieceColor }.

(** [type Board = (Piece | null)[][]]. *)
Abbreviation Board := (list (list (option Piece))).

Definition PieceColor_eqb (a b : PieceColor) : bool :=
  match a, b with
  | white, white | black, black => true
  | _, _ => false
  end.

(** ** Outcomes of a call

    Reading an element of [undefined] raises a [TypeError]; every other
    path of the three functions returns normally.  [OutOfFuel] belongs to
    the model only: it is the answer of the [while] loop of [isPathClear]
    when its iteration bound is exhausted, and [isPathClear_terminates]
    shows it is never produced. *)
Inductive result (A : Type) : Type :=
| Ok (a : A)
| TypeError
| OutOfFuel.

Arguments Ok {A} a.
Arguments TypeError {A}.
Arguments OutOfFuel {A}.

Definition bind {A B : Type} (m : result A) (k : A -> result B) : result B :=
  match m with
  | Ok a => k a
  | TypeError => TypeError
  | OutOfFuel => OutOfFuel
  end.

Notation "'let*' x ':=' m 'in' k" := (bind m (fun x => k))
  (at level 10, x name, m at level 100, k at level 200).

(** JavaScript's [a && b] with a pure left operand: [b] is evaluated only
    when [a] is true. *)
Definition andThen (a : bool) (m : result bool) : result bool :=
  if a then m else Ok false.

(** ** Reading the board *)

(** [arr[i]] for an integer [i]: [undefined] outside [0 .. length-1]. *)
Definition index {A : Type} (arr : list A) (i : Z) : option A :=
  if (0 <=? i) then arr !! Z.to_nat i else None.

(** The value of [board[r][c]] as far as the program observes it: a piece,
    or something falsy ([null], or [undefined] for a column outside the
    row).  Meaningful when row [r] exists. *)
Definition cell (board : Board) (r c : Z) : option Piece :=
  match index board r with
  | Some row => mjoin (index row c)
  | None => None
  end.

(** The expression [board[r][c]]: a [TypeError] when [board[r]] is
    [undefined]. *)
Definition readSquare (board : Board) (r c : Z) : result (option Piece) :=
  match index board r with
  | Some row => Ok (mjoin (index row c))
  | None => TypeError
  end.

(** Truthiness of [board[r][c]]. *)
Definition truthy (sq : option Piece) : bool :=
  match sq with Some _ => true | None => false end.

(** ** [isPathClear] *)

(** The [while] loop; [fuel] bounds the number of evaluations of the loop
    condition. *)
Fixpoint isPathClear_loop (fuel : nat) (board : Board)
    (rowStep colStep toRow toCol currentRow currentCol : Z) : result bool :=
  match fuel with
  | O => OutOfFuel
  | S fuel' =>
      if negb (currentRow =? toRow) || negb (currentCol =? toCol) then
        let* sq := readSquare board currentRow currentCol in
        if truthy sq then Ok false
        else isPathClear_loop fuel' board rowStep colStep toRow toCol
               (currentRow + rowStep) (currentCol + colStep)
      else Ok true
  end.

Definition step (from to : Z) : Z :=
  if to >? from then 1 else if to <? from then -1 else 0.

Definition isPathClear (board : Board) (fromRow fromCol toRow toCol : Z)
    : result bool :=
  let rowStep := step fromRow toRow in
  let colStep := step fromCol toCol in
  isPathClear_loop (S (length board + Z.to_nat (Z.abs (toCol - fromCol))))
    board rowStep colStep toRow toCol (fromRow + rowStep) (fromCol + colStep).

(** ** [isValidMove] *)

Definition isValidMove (board : Board) (fromRow fromCol toRow toCol : Z)
    : result bool :=
  let* sq := readSquare board fromRow fromCol in
  match sq with
  | None => Ok false
  | Some piece =>
      let rowDiff := Z.abs (toRow - fromRow) in
      let colDiff := Z.abs (toCol - fromCol) in
      match type piece with
      | Some pawn =>
          let direction := if PieceColor_eqb (color piece) white then -1 else 1 in
          let startRow := if PieceColor_eqb (color piece) white then 6 else 1 in
          if fromCol =? toCol then
            let* single := andThen (toRow =? fromRow + direction)
                         (let* dst := readSquare board toRow toCol in
                          Ok (negb (truthy dst))) in
            if single then Ok true
            else
              let* double := andThen ((fromRow =? startRow)
                                  && (toRow =? fromRow + 2 * direction))
                           (let* dst := readSquare board toRow toCol in
                            Ok (negb (truthy dst))) in
              if double then Ok true else Ok false
          else if (colDiff =? 1) && (toRow =? fromRow + direction) then
            let* dst := readSquare board toRow toCol in
            match dst with
            | Some target =>
                Ok (negb (PieceColor_eqb (color target) (color piece)))
            | None => Ok false
            end
          else Ok false
      | Some rook =>
          andThen ((rowDiff =? 0) || (colDiff =? 0))
            (isPathClear board fromRow fromCol toRow toCol)
      | Some bishop =>
          andThen (rowDiff =? colDiff)
            (isPathClear board fromRow fromCol toRow toCol)
      | Some queen =>
          andThen ((rowDiff =? 0) || (colDiff =? 0) || (rowDiff =? colDiff))
            (isPathClear board fromRow fromCol toRow toCol)
      | Some knight =>
          Ok (((rowDiff =? 2) && (colDiff =? 1))
              || ((rowDiff =? 1) && (colDiff =? 2)))
      | Some king =>
          Ok ((rowDiff <=? 1) && (colDiff <=? 1))
      | None => Ok false
      end
  end.

(** ** [getPossibleMoves] *)

(** A [for] loop over the values [xs] of its counter, threading the
    accumulator and stopping at the first exception. *)
Fixpoint forEach {A S : Type} (xs : list A) (body : A -> S -> result S)
    (s : S) : result S :=
  match xs with
  | [] => Ok s
  | x :: xs' => let* s' := body x s in forEach xs' body s'
  end.

(** The condition of the [if] in the loop body:
    [isValidMove(row, col, r, c) &&
     (!board[r][c] || board[r][c]!.color !== board[row][col]!.color)]. *)
Definition keepsMove (board : Board) (row col r c : Z) : result bool :=
  let* valid := isValidMove board row col r c in
  andThen valid
    (let* dst := readSquare board r c in
     match dst with
     | None => Ok true
     | Some target =>
         let* src := readSquare board row col in
         match src with
         | Some piece =>
             Ok (negb (PieceColor_eqb (color target) (color piece)))
         | None => TypeError
         end
     end).

Definition getPossibleMoves (board : Board) (row col : Z)
    : result (list (Z * Z)) :=
  forEach (seqZ 0 8) (fun r moves =>
    forEach (seqZ 0 8) (fun c moves =>
      let* keep := keepsMove board row col r c in
      Ok (if keep then moves ++ [(r, c)] else moves)) moves) [].

(** ** The initial position *)

Definition mk (t : PieceType) (c : PieceColor) : option Piece :=
  Some {| type := Some t; color := c |}.

Definition initialBoard : Board :=
  [ [ mk rook black; mk knight black; mk bishop black; mk queen black;
      mk king black; mk bishop black; mk knight black; mk rook black ];
    replicate 8 (mk pawn black);
    replicate 8 None;
    replicate 8 None;
    replicate 8 None;
    replicate 8 None;
    replicate 8 (mk pawn white);
    [ mk rook white; mk knight white; mk bishop white; mk queen white;
      mk king white; mk bishop white; mk knight white; mk rook white ] ].

(** ** Well-formed boards and squares *)

(** The 8x8 grid of the data model. *)
Definition wf_board (board : Board) : bool :=
  (length board =? 8)%nat && forallb (fun row => (length row =? 8)%nat) board.

(** A coordinate of the grid. *)
Definition inRange (i : Z) : Prop := 0 <= i <= 7.

(** The assignment [newBoard[r][c] = v] of [handleSquareClick], for a
    square of the grid; outside the rows of the board nothing is
    written. *)
Definition setSquare (board : Board) (r c : Z) (v : option Piece) : Board :=
  if (0 <=? r) && (0 <=? c)
  then alter (fun row => <[Z.to_nat c := v]> row) (Z.to_nat r) board
  else board.

(** ** Specification-level notions *)

(** The first [n] squares met from [(cr, cc)] in steps of [(rs, cs)] are
    all empty. *)
Fixpoint pathEmpty (board : Board) (rs cs : Z) (n : nat) (cr cc : Z) : bool :=
  match n with
  | O => true
  | S n' => negb (truthy (cell board cr cc))
            && pathEmpty board rs cs n' (cr + rs) (cc + cs)
  end.

(** The line pattern of the three sliding pieces. *)
Definition linePattern (t : PieceType) (fromRow fromCol toRow toCol : Z) : Prop :=
  match t with
  | rook => toRow = fromRow \/ toCol = fromCol
  | bishop => Z.abs (toRow - fromRow) = Z.abs (toCol - fromCol)
  | queen => toRow = fromRow \/ toCol = fromCol
             \/ Z.abs (toRow - fromRow) = Z.abs (toCol - fromCol)
  | _ => False
  end.

Definition sliding (t : PieceType) : Prop := t = rook \/ t = bishop \/ t = queen.

(** Length of a move in king steps. *)
Definition reach (fromRow fromCol toRow toCol : Z) : Z :=
  Z.max (Z.abs (toRow - fromRow)) (Z.abs (toCol - fromCol)).

(** The squares of the grid, in scan order, that satisfy [f]. *)
Definition movesBy (f : Z -> Z -> bool) : list (Z * Z) :=
  concat (map (fun r =>
    concat (map (fun c => if f r c then [(r, c)] else []) (seqZ 0 8)))
    (seqZ 0 8)).

Definition isOkTrue (m : result bool) : bool :=
  match m with Ok true => true | _ => false end.

(** Direction and start row of a pawn, as computed in [isValidMove]. *)
Definition direction (c : PieceColor) : Z :=
  if PieceColor_eqb c white then -1 else 1.

Definition startRow (c : PieceColor) : Z :=
  if PieceColor_eqb c white then 6 else 1.

(** A board holding a single piece. *)
Definition emptyBoard : Board := replicate 8 (replicate 8 None).

Definition lonePiece (t : PieceType) (c : PieceColor) (row col : Z) : Board :=
  setSquare emptyBoard row col (mk t c).

(** The squares a king on [(row, col)] steps to. *)
Definition kingStep (row col r c : Z) : bool :=
  (Z.abs (r - row) <=? 1) && (Z.abs (c - col) <=? 1)
  && negb ((r =? row) && (c =? col)).

(** Invariant of the walk of [isPathClear] that bounds its length: along a
    row the destination column is ahead and closer than the fuel left; when
    the row changes, the last row of the board (the first, going up) is
    closer than the fuel left. *)
Definition enoughFuel (fuel : nat) (board : Board)
    (rs cs toRow toCol cr cc : Z) : Prop :=
  (0 < fuel)%nat /\
  ((rs = 0 /\ cr = toRow /\
    ((cs = 1 /\ cc <= toCol /\ toCol - cc < Z.of_nat fuel)
     \/ (cs = -1 /\ toCol <= cc /\ cc - toCol < Z.of_nat fuel)
     \/ (cs = 0 /\ cc = toCol)))
   \/ (rs = 1 /\ (0 <= cr < Z.of_nat (length board) ->
                  Z.of_nat (length board) - cr < Z.of_nat fuel))
   \/ (rs = -1 /\ (0 <= cr < Z.of_nat (length board) ->
                   cr + 1 < Z.of_nat fuel))).

(** ** The component state and the click handler *)

(** The four [useState] cells of [App], as one render sees them. *)
Record GameState : Type := {
  board : Board;
  selectedSquare : option (Z * Z);
  currentPlayer : PieceColor;
  possibleMoves : list (Z * Z)
}.

(** The initial values given to [useState]. *)
Definition initialState : GameState :=
  {| board := initialBoard; selectedSquare := None;
     currentPlayer := white; possibleMoves := [] |}.

(** [possibleMoves.some(([r, c]) => r === row && c === col)]. *)
Definition isPossibleMove (moves : list (Z * Z)) (row col : Z) : bool :=
  existsb (fun '(r, c) => (r =? row) && (c =? col)) moves.

(** [currentPlayer === 'white' ? 'black' : 'white']. *)
Definition nextPlayer (c : PieceColor) : PieceColor :=
  if PieceColor_eqb c white then black else white.

(** The assignment [arr[c] = v] on an existing row.  Inside the row the
    element is replaced; from the length on (while [c] is an array index,
    below 2^32 - 1) the row grows, the skipped elements being holes, which
    read as [undefined].  For any other [c] JavaScript adds a property to
    the array object and leaves its elements alone; rows as lists have no
    place for such a property, and the model stops with [None]. *)
Definition assignCell (arr : list (option Piece)) (c : Z) (v : option Piece)
    : option (list (option Piece)) :=
  if (c <? 0) || (4294967295 <=? c) then None
  else if c <? Z.of_nat (length arr) then Some (<[Z.to_nat c := v]> arr)
  else Some (arr ++ replicate (Z.to_nat c - length arr) None ++ [v]).

(** Lines 120-122 of [handleSquareClick]:
    [const newBoard = board.map(r => [...r]);
     newBoard[row][col] = newBoard[selectedRow][selectedCol];
     newBoard[selectedRow][selectedCol] = null;]
    The copy leaves [board] itself untouched, so the new board is built
    from the old one.  The first assignment raises a [TypeError] when
    either row is [undefined]. *)
Definition movePiece (board : Board) (selectedRow selectedCol row col : Z)
    : option (result Board) :=
  match index board selectedRow with
  | None => Some TypeError
  | Some srow =>
      let moved := mjoin (index srow selectedCol) in
      match index board row with
      | None => Some TypeError
      | Some drow =>
          match assignCell drow col moved with
          | None => None
          | Some drow' =>
              let board1 := <[Z.to_nat row := drow']> board in
              match index board1 selectedRow with
              | None => Some TypeError
              | Some srow1 =>
                  match assignCell srow1 selectedCol None with
                  | None => None
                  | Some srow1' =>
                      Some (Ok (<[Z.to_nat selectedRow := srow1']> board1))
                  end
              end
          end
      end
  end.

(** The last statement of [handleSquareClick]: select the clicked piece of
    the player to move, or clear the selection.  [setSelectedSquare] is
    called before [getPossibleMoves] is evaluated, so the selection is
    already requested when that call raises. *)
Definition selectOrClear (st : GameState) (row col : Z)
    : GameState * result unit :=
  match readSquare (board st) row col with
  | Ok (Some piece) =>
      if PieceColor_eqb (color piece) (currentPlayer st) then
        let st1 := {| board := board st; selectedSquare := Some (row, col);
                      currentPlayer := currentPlayer st;
                      possibleMoves := possibleMoves st |} in
        match getPossibleMoves (board st) row col with
        | Ok moves =>
            ({| board := board st; selectedSquare := Some (row, col);
                currentPlayer := currentPlayer st; possibleMoves := moves |},
             Ok tt)
        | TypeError => (st1, TypeError)
        | OutOfFuel => (st1, OutOfFuel)
        end
      else
        ({| board := board st; selectedSquare := None;
            currentPlayer := currentPlayer st; possibleMoves := [] |}, Ok tt)
  | Ok None =>
      ({| board := board st; selectedSquare := None;
          currentPlayer := currentPlayer st; possibleMoves := [] |}, Ok tt)
  | TypeError => (st, TypeError)
  | OutOfFuel => (st, OutOfFuel)
  end.

(** [handleSquareClick]: the state the setters called by the handler
    request for the next render, and how the handler ended ([Ok tt] for a
    normal return).  [None] only where [movePiece] leaves the model. *)
Definition handleSquareClick (st : GameState) (row col : Z)
    : option (GameState * result unit) :=
  match selectedSquare st with
  | Some (selectedRow, selectedCol) =>
      if (row =? selectedRow) && (col =? selectedCol) then
        Some ({| board := board st; selectedSquare := None;
                 currentPlayer := currentPlayer st; possibleMoves := [] |},
              Ok tt)
      else if isPossibleMove (possibleMoves st) row col then
        match movePiece (board st) selectedRow selectedCol row col with
        | None => None
        | Some (Ok newBoard) =>
            Some ({| board := newBoard; selectedSquare := None;
                     currentPlayer := nextPlayer (currentPlayer st);
                     possibleMoves := [] |}, Ok tt)
        | Some TypeError => Some (st, TypeError)
        | Some OutOfFuel => Some (st, OutOfFuel)
        end
      else Some (selectOrClear st row col)
  | None => Some (selectOrClear st row col)
  end.

(** ** [renderSquare] *)



(** ** Specification-level notions for the game state *)

(** Number of pieces on a board. *)
Definition countPieces (board : Board) : nat :=
  sum_list_with (fun row => length (List.filter truthy row)) board.

(** What a render of [App] can rely on: the board is the 8x8 grid, the
    selected square holds a piece of the player to move, and the stored
    list is the one [getPossibleMoves] gives for it; without a selection
    the list is empty. *)
Definition consistent (st : GameState) : Prop :=
  wf_board (board st) = true /\
  match selectedSquare st with
  | Some (r, c) =>
      exists piece, cell (board st) r c = Some piece
        /\ color piece = currentPlayer st
        /\ getPossibleMoves (board st) r c = Ok (possibleMoves st)
  | None => possibleMoves st = []
  end.


(** ** Reading the board: basic facts *)

Lemma PieceColor_eqb_eq (a b : PieceColor) : PieceColor_eqb a b = true <-> a = b.
Proof. destruct a, b; simpl; split; congruence. Qed.

Lemma PieceColor_eqb_refl (a : PieceColor) : PieceColor_eqb a a = true.
Proof. now destruct a. Qed.

Lemma index_Some_range {A : Type} (arr : list A) (i : Z) (x : A) :
  index arr i = Some x -> 0 <= i < Z.of_nat (length arr).
Proof.
  unfold index. destruct (0 <=? i) eqn:E; [|discriminate].
  intros H. apply lookup_lt_Some in H. lia.
Qed.

Lemma index_in_range {A : Type} (arr : list A) (i : Z) :
  0 <= i < Z.of_nat (length arr) -> exists x, index arr i = Some x.
Proof.
  intros H. unfold index.
  replace (0 <=? i) with true by (symmetry; apply Z.leb_le; lia).
  destruct (lookup_lt_is_Some_2 arr (Z.to_nat i)) as [x Hx]; [lia|].
  eauto.
Qed.

Lemma wf_board_length (board : Board) :
  wf_board board = true -> length board = 8%nat.
Proof.
  unfold wf_board. intros H. apply andb_true_iff in H as [H _].
  now apply Nat.eqb_eq in H.
Qed.

Lemma wf_board_row (board : Board) (r : Z) :
  wf_board board = true -> inRange r ->
  exists row, index board r = Some row /\ length row = 8%nat.
Proof.
  intros Hwf Hr. pose proof (wf_board_length _ Hwf) as Hlen.
  destruct (index_in_range board r) as [row Hrow]; [unfold inRange in Hr; lia|].
  exists row. split; [assumption|].
  unfold wf_board in Hwf. apply andb_true_iff in Hwf as [_ Hall].
  rewrite forallb_forall in Hall.
  unfold index in Hrow. destruct (0 <=? r); [|discriminate].
  apply list_elem_of_lookup_2, list_elem_of_In in Hrow.
  apply Nat.eqb_eq. now apply Hall.
Qed.

Lemma readSquare_row (board : Board) (r c : Z) (row : list (option Piece)) :
  index board r = Some row -> readSquare board r c = Ok (cell board r c).
Proof. intros H. unfold readSquare, cell. now rewrite H. Qed.

Lemma readSquare_wf (board : Board) (r c : Z) :
  wf_board board = true -> inRange r ->
  readSquare board r c = Ok (cell board r c).
Proof.
  intros Hwf Hr. destruct (wf_board_row board r Hwf Hr) as (row & Hrow & _).
  eapply readSquare_row; eassumption.
Qed.

Lemma readSquare_cell_Some (board : Board) (r c : Z) (p : Piece) :
  cell board r c = Some p -> readSquare board r c = Ok (Some p).
Proof.
  unfold readSquare, cell. destruct (index board r); [|discriminate].
  now intros ->.
Qed.

Lemma cell_Some_range (board : Board) (r c : Z) (p : Piece) :
  wf_board board = true -> cell board r c = Some p -> inRange r /\ inRange c.
Proof.
  intros Hwf H. pose proof (wf_board_length _ Hwf) as Hlen.
  unfold cell in H. destruct (index board r) as [row|] eqn:Hrow; [|discriminate].
  pose proof (index_Some_range _ _ _ Hrow) as Hr.
  assert (Hr' : inRange r) by (unfold inRange; lia).
  destruct (wf_board_row board r Hwf Hr') as (row' & Hrow' & Hlen').
  rewrite Hrow in Hrow'. injection Hrow' as <-.
  destruct (index row c) as [x|] eqn:Hc; [|discriminate].
  apply index_Some_range in Hc. unfold inRange. lia.
Qed.

(** ** The path walk *)

Lemma step_sgn (from to : Z) : step from to = Z.sgn (to - from).
Proof.
  unfold step. destruct (Z.gtb_spec to from); [|destruct (Z.ltb_spec to from)].
  - rewrite Z.sgn_pos; lia.
  - rewrite Z.sgn_neg; lia.
  - replace (to - from) with 0 by lia. reflexivity.
Qed.

(** [n] steps before the destination, with enough fuel and every visited
    row present, the loop returns and answers whether the [n] squares ahead
    are all empty. *)
Lemma isPathClear_loop_spec (board : Board) (rs cs toRow toCol : Z) (n : nat) :
  forall (fuel : nat) (cr cc : Z),
    (n < fuel)%nat ->
    toRow = cr + Z.of_nat n * rs -> toCol = cc + Z.of_nat n * cs ->
    rs <> 0 \/ cs <> 0 ->
    (forall k, 0 <= k < Z.of_nat n -> exists row, index board (cr + k * rs) = Some row) ->
    isPathClear_loop fuel board rs cs toRow toCol cr cc
    = Ok (pathEmpty board rs cs n cr cc).
Proof.
  induction n as [|n IH]; intros fuel cr cc Hfuel Hr Hc Hstep Hrows.
  - destruct fuel as [|fuel]; [lia|]. simpl.
    replace (cr =? toRow) with true by (symmetry; apply Z.eqb_eq; lia).
    replace (cc =? toCol) with true by (symmetry; apply Z.eqb_eq; lia).
    reflexivity.
  - destruct fuel as [|fuel]; [lia|]. simpl.
    assert (Hne : negb (cr =? toRow) || negb (cc =? toCol) = true).
    { apply orb_true_iff. destruct Hstep as [Hs|Hs]; [left|right];
        apply negb_true_iff, Z.eqb_neq; nia. }
    rewrite Hne.
    destruct (Hrows 0) as [row Hrow]; [lia|].
    replace (cr + 0 * rs) with cr in Hrow by lia.
    rewrite (readSquare_row _ _ _ _ Hrow). simpl.
    destruct (truthy (cell board cr cc)); [reflexivity|]. simpl.
    apply IH; [lia|lia|lia|assumption|].
    intros k Hk. destruct (Hrows (k + 1)) as [row' Hrow']; [lia|].
    exists row'. rewrite <- Hrow'. f_equal. lia.
Qed.

Lemma pathEmpty_true (board : Board) (rs cs : Z) (n : nat) :
  forall cr cc,
    pathEmpty board rs cs n cr cc = true <->
    (forall k, 0 <= k < Z.of_nat n -> cell board (cr + k * rs) (cc + k * cs) = None).
Proof.
  induction n as [|n IH]; intros cr cc; simpl.
  - split; [intros _ k Hk; lia|reflexivity].
  - rewrite andb_true_iff, IH. split.
    + intros [H0 Hrest] k Hk.
      destruct (Z.eq_dec k 0) as [->|Hk0].
      * replace (cr + 0 * rs) with cr by lia. replace (cc + 0 * cs) with cc by lia.
        destruct (cell board cr cc); [discriminate|reflexivity].
      * specialize (Hrest (k - 1)).
        replace (cr + rs + (k - 1) * rs) with (cr + k * rs) in Hrest by lia.
        replace (cc + cs + (k - 1) * cs) with (cc + k * cs) in Hrest by lia.
        apply Hrest. lia.
    + intros H. split.
      * specialize (H 0).
        replace (cr + 0 * rs) with cr in H by lia.
        replace (cc + 0 * cs) with cc in H by lia.
        rewrite H; [reflexivity|lia].
      * intros k Hk. specialize (H (k + 1)).
        replace (cr + (k + 1) * rs) with (cr + rs + k * rs) in H by lia.
        replace (cc + (k + 1) * cs) with (cc + cs + k * cs) in H by lia.
        apply H. lia.
Qed.

(** Along a rook or bishop line of the grid, [isPathClear] returns, and
    returns true exactly when the squares strictly between the two ends
    are empty. *)
Lemma isPathClear_line (board : Board) (fromRow fromCol toRow toCol : Z) :
  wf_board board = true ->
  inRange fromRow -> inRange fromCol -> inRange toRow -> inRange toCol ->
  toRow = fromRow \/ toCol = fromCol
  \/ Z.abs (toRow - fromRow) = Z.abs (toCol - fromCol) ->
  exists v, isPathClear board fromRow fromCol toRow toCol = Ok v /\
    (v = true <->
     forall k, 0 < k < reach fromRow fromCol toRow toCol ->
       cell board (fromRow + k * Z.sgn (toRow - fromRow))
                  (fromCol + k * Z.sgn (toCol - fromCol)) = None).
Proof.
  intros Hwf Hfr Hfc Htr Htc Hline.
  pose proof (wf_board_length _ Hwf) as Hlen.
  unfold isPathClear. rewrite !step_sgn.
  set (rs := Z.sgn (toRow - fromRow)). set (cs := Z.sgn (toCol - fromCol)).
  set (n := reach fromRow fromCol toRow toCol).
  unfold inRange in *.
  destruct (Z.eq_dec n 0) as [Hn0|Hn0].
  - (* zero displacement: the loop condition fails at once *)
    assert (toRow = fromRow /\ toCol = fromCol) as [-> ->]
      by (subst n; unfold reach in Hn0; lia).
    subst rs cs. rewrite !Z.sub_diag. simpl.
    rewrite !Z.add_0_r, !Z.eqb_refl. simpl.
    exists true. split; [reflexivity|]. split; [|reflexivity].
    intros _ k Hk. subst n. lia.
  - assert (Hgeom : 0 < n /\ toRow = fromRow + n * rs /\ toCol = fromCol + n * cs
                    /\ (rs <> 0 \/ cs <> 0) /\ -1 <= rs <= 1).
    { subst n rs cs. unfold reach in *.
      destruct (Z.sgn_spec (toRow - fromRow)) as [[? ->]|[[? ->]|[? ->]]];
      destruct (Z.sgn_spec (toCol - fromCol)) as [[? ->]|[[? ->]|[? ->]]];
      lia. }
    destruct Hgeom as (Hpos & Hr & Hc & Hstep & Hrs).
    rewrite (isPathClear_loop_spec board rs cs toRow toCol (Z.to_nat (n - 1))).
    + eexists. split; [reflexivity|]. rewrite pathEmpty_true.
      split; intros H k Hk.
      * specialize (H (k - 1)).
        replace (fromRow + rs + (k - 1) * rs) with (fromRow + k * rs) in H by lia.
        replace (fromCol + cs + (k - 1) * cs) with (fromCol + k * cs) in H by lia.
        apply H. lia.
      * specialize (H (k + 1)).
        replace (fromRow + (k + 1) * rs) with (fromRow + rs + k * rs) in H by lia.
        replace (fromCol + (k + 1) * cs) with (fromCol + cs + k * cs) in H by lia.
        apply H. lia.
    + subst n. unfold reach in *. lia.
    + lia.
    + lia.
    + assumption.
    + intros k Hk. apply index_in_range. rewrite Hlen. nia.
Qed.

(** ** Writing a square *)

Lemma wf_board_Forall (board : Board) :
  wf_board board = true <->
  length board = 8%nat /\ Forall (fun row => length row = 8%nat) board.
Proof.
  unfold wf_board. rewrite andb_true_iff, Nat.eqb_eq, forallb_forall, Forall_forall.
  split; intros [H1 H2]; (split; [assumption|]); intros row Hrow.
  - apply Nat.eqb_eq, H2. now apply list_elem_of_In.
  - apply Nat.eqb_eq, H2. now apply list_elem_of_In.
Qed.

Lemma wf_setSquare (board : Board) (r c : Z) (v : option Piece) :
  wf_board board = true -> wf_board (setSquare board r c v) = true.
Proof.
  rewrite !wf_board_Forall. intros [Hlen Hall]. unfold setSquare.
  destruct ((0 <=? r) && (0 <=? c)); [|now split].
  split; [now rewrite length_alter|].
  apply Forall_alter; [assumption|].
  intros row _ Hrow. now rewrite length_insert.
Qed.

Lemma cell_setSquare_eq (board : Board) (r c : Z) (v : option Piece) :
  wf_board board = true -> inRange r -> inRange c ->
  cell (setSquare board r c v) r c = v.
Proof.
  intros Hwf Hr Hc. destruct (wf_board_row board r Hwf Hr) as (row & Hrow & Hlen).
  unfold inRange in *. unfold setSquare, cell, index in *.
  replace (0 <=? r) with true in * by (symmetry; apply Z.leb_le; lia).
  replace (0 <=? c) with true by (symmetry; apply Z.leb_le; lia).
  simpl. rewrite list_lookup_alter_eq, Hrow. simpl.
  rewrite list_lookup_insert_eq by lia. reflexivity.
Qed.

Lemma cell_setSquare_ne (board : Board) (r c r' c' : Z) (v : option Piece) :
  (r, c) <> (r', c') ->
  cell (setSquare board r c v) r' c' = cell board r' c'.
Proof.
  intros Hne. unfold setSquare.
  destruct (Z.leb_spec 0 r); [|reflexivity].
  destruct (Z.leb_spec 0 c); [|reflexivity]. simpl.
  unfold cell, index.
  destruct (Z.leb_spec 0 r'); [|reflexivity].
  destruct (Z.eq_dec r r') as [->|Hr].
  - rewrite list_lookup_alter_eq.
    destruct (board !! Z.to_nat r') as [row|]; [|reflexivity]. simpl.
    destruct (Z.leb_spec 0 c'); [|reflexivity].
    rewrite list_lookup_insert_ne; [reflexivity|].
    intros Heq. apply Hne. f_equal. lia.
  - rewrite list_lookup_alter_ne by lia. reflexivity.
Qed.

(** ** [isValidMove]: one equation per piece type *)

Section OnePiece.
Variables (board : Board) (fromRow fromCol toRow toCol : Z) (piece : Piece).
Hypothesis Hsrc : cell board fromRow fromCol = Some piece.

Let rowDiff := Z.abs (toRow - fromRow).
Let colDiff := Z.abs (toCol - fromCol).

Lemma isValidMove_king :
  type piece = Some king ->
  isValidMove board fromRow fromCol toRow toCol
  = Ok ((rowDiff <=? 1) && (colDiff <=? 1)).
Proof.
  intros Ht. unfold isValidMove.
  rewrite (readSquare_cell_Some _ _ _ _ Hsrc). simpl. now rewrite Ht.
Qed.

Lemma isValidMove_knight :
  type piece = Some knight ->
  isValidMove board fromRow fromCol toRow toCol
  = Ok (((rowDiff =? 2) && (colDiff =? 1)) || ((rowDiff =? 1) && (colDiff =? 2))).
Proof.
  intros Ht. unfold isValidMove.
  rewrite (readSquare_cell_Some _ _ _ _ Hsrc). simpl. now rewrite Ht.
Qed.

Lemma isValidMove_rook :
  type piece = Some rook ->
  isValidMove board fromRow fromCol toRow toCol
  = andThen ((rowDiff =? 0) || (colDiff =? 0))
      (isPathClear board fromRow fromCol toRow toCol).
Proof.
  intros Ht. unfold isValidMove.
  rewrite (readSquare_cell_Some _ _ _ _ Hsrc). simpl. now rewrite Ht.
Qed.

Lemma isValidMove_bishop :
  type piece = Some bishop ->
  isValidMove board fromRow fromCol toRow toCol
  = andThen (rowDiff =? colDiff)
      (isPathClear board fromRow fromCol toRow toCol).
Proof.
  intros Ht. unfold isValidMove.
  rewrite (readSquare_cell_Some _ _ _ _ Hsrc). simpl. now rewrite Ht.
Qed.

Lemma isValidMove_queen :
  type piece = Some queen ->
  isValidMove board fromRow fromCol toRow toCol
  = andThen ((rowDiff =? 0) || (colDiff =? 0) || (rowDiff =? colDiff))
      (isPathClear board fromRow fromCol toRow toCol).
Proof.
  intros Ht. unfold isValidMove.
  rewrite (readSquare_cell_Some _ _ _ _ Hsrc). simpl. now rewrite Ht.
Qed.

Lemma isValidMove_untyped :
  type piece = None ->
  isValidMove board fromRow fromCol toRow toCol = Ok false.
Proof.
  intros Ht. unfold isValidMove.
  rewrite (readSquare_cell_Some _ _ _ _ Hsrc). simpl. now rewrite Ht.
Qed.

(** The pawn branch, with the reads of the destination resolved on a
    destination row that exists. *)
Lemma isValidMove_pawn (row : list (option Piece)) :
  type piece = Some pawn ->
  index board toRow = Some row ->
  isValidMove board fromRow fromCol toRow toCol
  = Ok (if fromCol =? toCol then
          ((toRow =? fromRow + direction (color piece))
           && negb (truthy (cell board toRow toCol)))
          || ((fromRow =? startRow (color piece))
              && (toRow =? fromRow + 2 * direction (color piece))
              && negb (truthy (cell board toRow toCol)))
        else
          (colDiff =? 1) && (toRow =? fromRow + direction (color piece))
          && match cell board toRow toCol with
             | Some target => negb (PieceColor_eqb (color target) (color piece))
             | None => false
             end).
Proof.
  intros Ht Hrow. unfold isValidMove.
  rewrite (readSquare_cell_Some _ _ _ _ Hsrc). simpl. rewrite Ht.
  rewrite (readSquare_row _ _ _ _ Hrow). fold (direction (color piece)).
  fold (startRow (color piece)). fold colDiff.
  destruct (fromCol =? toCol).
  - destruct (toRow =? fromRow + direction (color piece)); simpl;
      destruct (truthy (cell board toRow toCol)); simpl; try reflexivity;
      destruct (fromRow =? startRow (color piece)); simpl; try reflexivity;
      destruct (toRow =? fromRow + 2 * direction (color piece)); reflexivity.
  - destruct ((colDiff =? 1) && (toRow =? fromRow + direction (color piece)));
      simpl; [|reflexivity].
    destruct (cell board toRow toCol); reflexivity.
Qed.
End OnePiece.

(** ** Sliding pieces *)

Lemma isValidMove_sliding (board : Board) (fromRow fromCol toRow toCol : Z)
    (piece : Piece) (t : PieceType) :
  wf_board board = true ->
  inRange fromRow -> inRange fromCol -> inRange toRow -> inRange toCol ->
  cell board fromRow fromCol = Some piece ->
  type piece = Some t -> sliding t ->
  exists v, isValidMove board fromRow fromCol toRow toCol = Ok v /\
    (v = true <->
     linePattern t fromRow fromCol toRow toCol /\
     forall k, 0 < k < reach fromRow fromCol toRow toCol ->
       cell board (fromRow + k * Z.sgn (toRow - fromRow))
                  (fromCol + k * Z.sgn (toCol - fromCol)) = None).
Proof.
  intros Hwf Hfr Hfc Htr Htc Hsrc Ht Hsl.
  assert (Hcases : exists pat : bool,
    isValidMove board fromRow fromCol toRow toCol
    = andThen pat (isPathClear board fromRow fromCol toRow toCol)
    /\ (pat = true <-> linePattern t fromRow fromCol toRow toCol)).
  { destruct Hsl as [-> | [-> | ->]]; eexists; (split;
      [ first [ now apply (isValidMove_rook _ _ _ _ _ _ Hsrc)
              | now apply (isValidMove_bishop _ _ _ _ _ _ Hsrc)
              | now apply (isValidMove_queen _ _ _ _ _ _ Hsrc) ] | ]);
      simpl; rewrite ?orb_true_iff, !Z.eqb_eq; lia. }
  destruct Hcases as (pat & Heq & Hpat). rewrite Heq.
  destruct pat; simpl.
  - assert (Hline : toRow = fromRow \/ toCol = fromCol
                    \/ Z.abs (toRow - fromRow) = Z.abs (toCol - fromCol)).
    { assert (Hp : linePattern t fromRow fromCol toRow toCol) by now apply Hpat.
      destruct Hsl as [-> | [-> | ->]]; simpl in Hp; tauto. }
    destruct (isPathClear_line board fromRow fromCol toRow toCol
                Hwf Hfr Hfc Htr Htc Hline) as (v & Hv & Hiff).
    exists v. split; [assumption|]. rewrite Hiff. intuition.
  - exists false. split; [reflexivity|]. split; [discriminate|].
    intros [Hp _]. apply Hpat in Hp. discriminate.
Qed.

(** An intermediate square of a line move lies on the grid and differs
    from the source square. *)
Lemma between_inRange (fromRow fromCol toRow toCol k : Z) :
  inRange fromRow -> inRange fromCol -> inRange toRow -> inRange toCol ->
  toRow = fromRow \/ toCol = fromCol
  \/ Z.abs (toRow - fromRow) = Z.abs (toCol - fromCol) ->
  0 < k < reach fromRow fromCol toRow toCol ->
  inRange (fromRow + k * Z.sgn (toRow - fromRow))
  /\ inRange (fromCol + k * Z.sgn (toCol - fromCol))
  /\ (fromRow + k * Z.sgn (toRow - fromRow),
      fromCol + k * Z.sgn (toCol - fromCol)) <> (fromRow, fromCol).
Proof.
  unfold inRange, reach. intros Hfr Hfc Htr Htc Hline Hk.
  destruct (Z.sgn_spec (toRow - fromRow)) as [[? ->]|[[? ->]|[? ->]]];
  destruct (Z.sgn_spec (toCol - fromCol)) as [[? ->]|[[? ->]|[? ->]]];
  (repeat split; try lia); intros Heq; injection Heq; lia.
Qed.

(** ** Totality on the grid *)

Lemma isValidMove_empty (board : Board) (fromRow fromCol toRow toCol : Z)
    (row : list (option Piece)) :
  index board fromRow = Some row ->
  cell board fromRow fromCol = None ->
  isValidMove board fromRow fromCol toRow toCol = Ok false.
Proof.
  intros Hrow Hsrc. unfold isValidMove.
  rewrite (readSquare_row _ _ _ _ Hrow), Hsrc. reflexivity.
Qed.

Lemma isValidMove_total (board : Board) (fromRow fromCol toRow toCol : Z) :
  wf_board board = true ->
  inRange fromRow -> inRange fromCol -> inRange toRow -> inRange toCol ->
  exists v, isValidMove board fromRow fromCol toRow toCol = Ok v.
Proof.
  intros Hwf Hfr Hfc Htr Htc.
  destruct (wf_board_row board fromRow Hwf Hfr) as (srow & Hsrow & _).
  destruct (wf_board_row board toRow Hwf Htr) as (drow & Hdrow & _).
  destruct (cell board fromRow fromCol) as [piece|] eqn:Hsrc.
  - destruct (type piece) as [t|] eqn:Ht.
    + destruct t.
      * eexists. now apply (isValidMove_king _ _ _ _ _ _ Hsrc).
      * destruct (isValidMove_sliding board fromRow fromCol toRow toCol piece queen)
          as (v & Hv & _); unfold sliding; eauto.
      * destruct (isValidMove_sliding board fromRow fromCol toRow toCol piece rook)
          as (v & Hv & _); unfold sliding; eauto.
      * destruct (isValidMove_sliding board fromRow fromCol toRow toCol piece bishop)
          as (v & Hv & _); unfold sliding; eauto.
      * eexists. now apply (isValidMove_knight _ _ _ _ _ _ Hsrc).
      * eexists. now apply (isValidMove_pawn _ _ _ _ _ _ Hsrc drow).
    + eexists. now apply (isValidMove_untyped _ _ _ _ _ _ Hsrc).
  - exists false. eapply isValidMove_empty; eassumption.
Qed.

(** The filter of [getPossibleMoves] keeps a square only if the move is
    valid and the square is empty or holds a piece of the other colour. *)
Lemma keepsMove_true (board : Board) (row col r c : Z) :
  keepsMove board row col r c = Ok true ->
  isValidMove board row col r c = Ok true /\
  (cell board r c = None \/
   exists target piece, cell board r c = Some target /\
     cell board row col = Some piece /\ color target <> color piece).
Proof.
  unfold keepsMove.
  destruct (isValidMove board row col r c) as [[|]| |]; simpl; try discriminate.
  intros H. split; [reflexivity|].
  unfold readSquare, cell in *.
  destruct (index board r) as [drow|]; simpl in H; [|discriminate].
  destruct (mjoin (index drow c)) as [target|]; [|now left].
  destruct (index board row) as [srow|]; simpl in H; [|discriminate].
  destruct (mjoin (index srow col)) as [piece|]; [|discriminate].
  right. exists target, piece. repeat split.
  intros Heq. rewrite Heq, PieceColor_eqb_refl in H. discriminate.
Qed.

Lemma keepsMove_total (board : Board) (row col r c : Z) :
  wf_board board = true ->
  inRange row -> inRange col -> inRange r -> inRange c ->
  keepsMove board row col r c = Ok (isOkTrue (keepsMove board row col r c)).
Proof.
  intros Hwf Hrow Hcol Hr Hc.
  destruct (isValidMove_total board row col r c Hwf Hrow Hcol Hr Hc) as [v Hv].
  unfold keepsMove. rewrite Hv. destruct v; simpl; [|reflexivity].
  rewrite (readSquare_wf _ r c Hwf Hr). simpl.
  destruct (cell board r c) as [target|]; [|reflexivity].
  rewrite (readSquare_wf _ row col Hwf Hrow). simpl.
  destruct (cell board row col) as [piece|] eqn:Hsrc.
  - destruct (negb _); reflexivity.
  - destruct (wf_board_row board row Hwf Hrow) as (srow & Hsrow & _).
    rewrite (isValidMove_empty _ _ _ _ _ _ Hsrow Hsrc) in Hv. discriminate.
Qed.

(** ** The scan of [getPossibleMoves] *)

Lemma forEach_app {A B : Type} (xs : list A) (body : A -> list B -> result (list B))
    (F : A -> list B) :
  (forall x acc, In x xs -> body x acc = Ok (acc ++ F x)) ->
  forall acc, forEach xs body acc = Ok (acc ++ concat (map F xs)).
Proof.
  induction xs as [|x xs IH]; intros Hbody acc; simpl.
  - now rewrite app_nil_r.
  - rewrite Hbody by now left. simpl.
    rewrite IH by (intros; apply Hbody; now right).
    now rewrite <- app_assoc.
Qed.

Lemma In_seqZ_8 (i : Z) : In i (seqZ 0 8) <-> inRange i.
Proof. rewrite <- list_elem_of_In, elem_of_seqZ. unfold inRange. lia. Qed.

Lemma getPossibleMoves_scan (board : Board) (row col : Z) (f : Z -> Z -> bool) :
  (forall r c, inRange r -> inRange c -> keepsMove board row col r c = Ok (f r c)) ->
  getPossibleMoves board row col = Ok (movesBy f).
Proof.
  intros Hf. unfold getPossibleMoves, movesBy.
  rewrite (forEach_app _ _
    (fun r => concat (map (fun c => if f r c then [(r, c)] else []) (seqZ 0 8))));
    [reflexivity|].
  intros r acc Hr. apply In_seqZ_8 in Hr.
  apply forEach_app. intros c acc' Hc. apply In_seqZ_8 in Hc.
  rewrite (Hf r c Hr Hc). simpl. destruct (f r c); [reflexivity|].
  now rewrite app_nil_r.
Qed.

Lemma In_movesBy (f : Z -> Z -> bool) (r c : Z) :
  In (r, c) (movesBy f) <-> inRange r /\ inRange c /\ f r c = true.
Proof.
  unfold movesBy. rewrite in_concat. split.
  - intros (l & Hl & Hin). apply in_map_iff in Hl as (r' & <- & Hr').
    apply in_concat in Hin as (l' & Hl' & Hin').
    apply in_map_iff in Hl' as (c' & <- & Hc').
    destruct (f r' c') eqn:E; [|contradiction].
    destruct Hin' as [Heq|[]]. injection Heq as <- <-.
    rewrite In_seqZ_8 in Hr', Hc'. auto.
  - intros (Hr & Hc & Hf). eexists. split.
    + apply in_map_iff. exists r. split; [reflexivity|]. now apply In_seqZ_8.
    + apply in_concat. eexists. split.
      * apply in_map_iff. exists c. split; [reflexivity|]. now apply In_seqZ_8.
      * rewrite Hf. now left.
Qed.

Lemma getPossibleMoves_wf (board : Board) (row col : Z) :
  wf_board board = true -> inRange row -> inRange col ->
  getPossibleMoves board row col
  = Ok (movesBy (fun r c => isOkTrue (keepsMove board row col r c))).
Proof.
  intros Hwf Hrow Hcol. apply getPossibleMoves_scan.
  intros r c Hr Hc. now apply keepsMove_total.
Qed.

(** ** Termination of the path walk

    Whatever the arguments, the walk of [isPathClear] ends within the fuel
    the model gives it: a walk that changes row leaves the rows of the
    board (and raises) after at most [length board] squares, and a walk
    along a row reaches the destination column. *)

Lemma isPathClear_loop_terminates (board : Board) (rs cs toRow toCol : Z) :
  forall (fuel : nat) (cr cc : Z),
    enoughFuel fuel board rs cs toRow toCol cr cc ->
    isPathClear_loop fuel board rs cs toRow toCol cr cc <> OutOfFuel.
Proof.
  induction fuel as [|fuel IH]; intros cr cc [Hpos Hinv]; [lia|]. simpl.
  destruct (negb (cr =? toRow) || negb (cc =? toCol)) eqn:Hcond; [|discriminate].
  unfold readSquare. destruct (index board cr) as [row|] eqn:Hrow; [|discriminate].
  simpl. destruct (truthy _); [discriminate|].
  apply index_Some_range in Hrow.
  apply orb_true_iff in Hcond.
  rewrite !negb_true_iff, !Z.eqb_neq in Hcond.
  apply IH. unfold enoughFuel.
  destruct Hinv as [(-> & -> & Hcs)|[(-> & Hdown)|(-> & Hup)]].
  - split; [lia|]. left. lia.
  - split; [lia|]. right. left. lia.
  - split; [lia|]. right. right. lia.
Qed.

Lemma isPathClear_terminates (board : Board) (fromRow fromCol toRow toCol : Z) :
  isPathClear board fromRow fromCol toRow toCol <> OutOfFuel.
Proof.
  unfold isPathClear. apply isPathClear_loop_terminates.
  unfold enoughFuel, step. split; [lia|].
  destruct (Z.gtb_spec toRow fromRow); [|destruct (Z.ltb_spec toRow fromRow)];
  destruct (Z.gtb_spec toCol fromCol); try destruct (Z.ltb_spec toCol fromCol);
    lia.
Qed.

Lemma isValidMove_terminates (board : Board) (fromRow fromCol toRow toCol : Z) :
  isValidMove board fromRow fromCol toRow toCol <> OutOfFuel.
Proof.
  pose proof (isPathClear_terminates board fromRow fromCol toRow toCol) as Hpath.
  unfold isValidMove, readSquare.
  destruct (index board fromRow) as [srow|]; simpl; [|discriminate].
  destruct (mjoin (index srow fromCol)) as [piece|]; [|discriminate].
  destruct (type piece) as [[]|]; try discriminate;
    try (unfold andThen; match goal with |- (if ?b then _ else _) <> _ =>
           destruct b; [assumption|discriminate] end).
  unfold andThen, bind, readSquare.
  repeat match goal with
    | |- Ok _ <> OutOfFuel => discriminate
    | |- TypeError <> OutOfFuel => discriminate
    | |- context [if ?b then _ else _] => destruct b
    | |- context [match ?x with Some _ => _ | None => _ end] => destruct x
    end.
Qed.

(** ** Properties of [isValidMove] *)

(** C5. On a board of the grid, a move from an empty source square is
    rejected: [isValidMove] returns false whatever the destination. *)
Theorem isValidMove_empty_source (board : Board) (fromRow fromCol toRow toCol : Z) :
  wf_board board = true -> inRange fromRow ->
  cell board fromRow fromCol = None ->
  isValidMove board fromRow fromCol toRow toCol = Ok false.
Proof.
  intros Hwf Hfr Hsrc.
  destruct (wf_board_row board fromRow Hwf Hfr) as (row & Hrow & _).
  eapply isValidMove_empty; eassumption.
Qed.

Lemma isValidMove_empty_source_witness :
  isValidMove initialBoard 3 3 5 3 = Ok false.
Proof.
  apply isValidMove_empty_source;
    [reflexivity | unfold inRange; lia | reflexivity].
Defined.

(** C6. With a knight on the source square, [isValidMove] returns true
    exactly when the absolute row and column differences are (2,1) or
    (1,2), and false otherwise; the answer is the same on every board that
    has a knight on that square, so no other square is consulted. *)
Theorem isValidMove_knight_L_shape (board : Board)
    (fromRow fromCol toRow toCol : Z) (piece : Piece) :
  cell board fromRow fromCol = Some piece -> type piece = Some knight ->
  let L := (Z.abs (toRow - fromRow) = 2 /\ Z.abs (toCol - fromCol) = 1)
           \/ (Z.abs (toRow - fromRow) = 1 /\ Z.abs (toCol - fromCol) = 2) in
  (isValidMove board fromRow fromCol toRow toCol = Ok true <-> L) /\
  (isValidMove board fromRow fromCol toRow toCol = Ok false <-> ~ L) /\
  (forall (board' : Board) (piece' : Piece),
     cell board' fromRow fromCol = Some piece' -> type piece' = Some knight ->
     isValidMove board' fromRow fromCol toRow toCol
     = isValidMove board fromRow fromCol toRow toCol).
Proof.
  intros Hsrc Ht L.
  rewrite (isValidMove_knight _ _ _ toRow toCol _ Hsrc Ht).
  assert (HL : ((Z.abs (toRow - fromRow) =? 2) && (Z.abs (toCol - fromCol) =? 1))
               || ((Z.abs (toRow - fromRow) =? 1) && (Z.abs (toCol - fromCol) =? 2))
               = true <-> L).
  { subst L. rewrite orb_true_iff, !andb_true_iff, !Z.eqb_eq. reflexivity. }
  repeat split.
  - intros [= H]. now apply HL.
  - intros H. apply HL in H. now rewrite H.
  - intros [= H] HL'. apply HL in HL'. congruence.
  - intros H. destruct (_ || _); [|reflexivity]. exfalso. now apply H, HL.
  - intros board' piece' Hsrc' Ht'.
    now rewrite (isValidMove_knight _ _ _ toRow toCol _ Hsrc' Ht').
Qed.

Lemma isValidMove_knight_L_shape_witness :
  isValidMove initialBoard 7 1 5 2 = Ok true <->
  (Z.abs (5 - 7) = 2 /\ Z.abs (2 - 1) = 1)
  \/ (Z.abs (5 - 7) = 1 /\ Z.abs (2 - 1) = 2).
Proof.
  apply (isValidMove_knight_L_shape initialBoard 7 1 5 2
           {| type := Some knight; color := white |});
    reflexivity.
Defined.

(** C9. With a king on the source square, the zero-displacement move
    (destination equal to source) is accepted by [isValidMove]. *)
Theorem isValidMove_king_zero_move (board : Board) (row col : Z) (piece : Piece) :
  cell board row col = Some piece -> type piece = Some king ->
  isValidMove board row col row col = Ok true.
Proof.
  intros Hsrc Ht. rewrite (isValidMove_king _ _ _ row col _ Hsrc Ht).
  rewrite !Z.sub_diag. reflexivity.
Qed.

Lemma isValidMove_king_zero_move_witness :
  isValidMove initialBoard 7 4 7 4 = Ok true.
Proof.
  apply (isValidMove_king_zero_move initialBoard 7 4
           {| type := Some king; color := white |}); reflexivity.
Defined.

(** C2. A pawn standing on its start row (6 for white, 1 for black) may
    advance two rows in its direction along its column as soon as the
    destination square is empty; the square it passes over is not
    examined, so the move is accepted also with any piece placed on it. *)
Theorem isValidMove_pawn_double_step (board : Board) (fromRow fromCol : Z)
    (piece : Piece) :
  wf_board board = true ->
  cell board fromRow fromCol = Some piece -> type piece = Some pawn ->
  fromRow = startRow (color piece) ->
  cell board (fromRow + 2 * direction (color piece)) fromCol = None ->
  isValidMove board fromRow fromCol
    (fromRow + 2 * direction (color piece)) fromCol = Ok true
  /\ forall blocker : Piece,
       isValidMove
         (setSquare board (fromRow + direction (color piece)) fromCol (Some blocker))
         fromRow fromCol (fromRow + 2 * direction (color piece)) fromCol = Ok true.
Proof.
  intros Hwf Hsrc Ht Hstart Hdst.
  assert (Hjump : forall b : Board,
    wf_board b = true -> cell b fromRow fromCol = Some piece ->
    cell b (fromRow + 2 * direction (color piece)) fromCol = None ->
    isValidMove b fromRow fromCol (fromRow + 2 * direction (color piece)) fromCol
    = Ok true).
  { intros b Hb Hs Hd.
    assert (Hto : inRange (fromRow + 2 * direction (color piece))).
    { rewrite Hstart. unfold inRange, startRow, direction.
      destruct (PieceColor_eqb _ _); lia. }
    destruct (wf_board_row b _ Hb Hto) as (drow & Hdrow & _).
    rewrite (isValidMove_pawn _ _ _ _ _ _ Hs drow Ht Hdrow).
    rewrite Z.eqb_refl, Hd, Hstart, !Z.eqb_refl. simpl.
    now rewrite orb_true_r. }
  split; [now apply Hjump|].
  intros blocker. apply Hjump.
  - now apply wf_setSquare.
  - rewrite cell_setSquare_ne; [assumption|].
    intros [= H]. unfold direction in H. destruct (PieceColor_eqb _ _); lia.
  - rewrite cell_setSquare_ne; [assumption|].
    intros [= H]. unfold direction in H. destruct (PieceColor_eqb _ _); lia.
Qed.

Lemma isValidMove_pawn_double_step_witness :
  isValidMove
    (setSquare initialBoard (6 + direction white) 4 (mk knight black))
    6 4 (6 + 2 * direction white) 4 = Ok true.
Proof.
  apply (isValidMove_pawn_double_step initialBoard 6 4
           {| type := Some pawn; color := white |}); reflexivity.
Defined.

(** C4. For a pawn, a move one row in its direction to an adjacent column
    is accepted exactly when the destination square of the grid holds a
    piece of the other colour: it is rejected on an empty square and on a
    piece of the pawn's own colour. *)
Theorem isValidMove_pawn_diagonal (board : Board)
    (fromRow fromCol toRow toCol : Z) (piece : Piece) :
  wf_board board = true -> inRange toRow ->
  cell board fromRow fromCol = Some piece -> type piece = Some pawn ->
  Z.abs (toCol - fromCol) = 1 ->
  toRow = fromRow + direction (color piece) ->
  (isValidMove board fromRow fromCol toRow toCol = Ok true <->
   exists target, cell board toRow toCol = Some target
                  /\ color target <> color piece) /\
  (cell board toRow toCol = None ->
   isValidMove board fromRow fromCol toRow toCol = Ok false) /\
  (forall target, cell board toRow toCol = Some target ->
     color target = color piece ->
     isValidMove board fromRow fromCol toRow toCol = Ok false).
Proof.
  intros Hwf Hto Hsrc Ht Hcol Hrow.
  destruct (wf_board_row board toRow Hwf Hto) as (drow & Hdrow & _).
  rewrite (isValidMove_pawn _ _ _ _ _ _ Hsrc drow Ht Hdrow).
  replace (fromCol =? toCol) with false by (symmetry; apply Z.eqb_neq; lia).
  rewrite Hcol, <- Hrow, !Z.eqb_refl. simpl.
  destruct (cell board toRow toCol) as [target|].
  - destruct (PieceColor_eqb (color target) (color piece)) eqn:E; simpl.
    + apply PieceColor_eqb_eq in E. repeat split; try discriminate.
      intros (t' & [= <-] & Hne). contradiction.
    + repeat split; try discriminate.
      * intros _. exists target. split; [reflexivity|].
        intros Heq. apply PieceColor_eqb_eq in Heq. congruence.
      * intros t' [= <-] Heq. apply PieceColor_eqb_eq in Heq. congruence.
  - repeat split; try discriminate.
    intros (t' & [=] & _).
Qed.

Lemma isValidMove_pawn_diagonal_witness :
  isValidMove (setSquare initialBoard 5 5 (mk knight black)) 6 4 5 5 = Ok true <->
  exists target,
    cell (setSquare initialBoard 5 5 (mk knight black)) 5 5 = Some target
    /\ color target <> color {| type := Some pawn; color := white |}.
Proof.
  apply (isValidMove_pawn_diagonal
           (setSquare initialBoard 5 5 (mk knight black)) 6 4 5 5
           {| type := Some pawn; color := white |});
    [reflexivity | unfold inRange; lia | reflexivity..].
Defined.

(** C1. For a rook, bishop or queen on the source square of a board of
    the grid, [isValidMove] returns a boolean, and returns true exactly
    when the move fits the line pattern of the piece (same row or same
    column for a rook, equal absolute row and column differences for a
    bishop, either for a queen) and every square strictly between source
    and destination along that line is empty.  Placing any piece on one of
    these intermediate squares of an accepted move makes the answer
    false. *)
Theorem isValidMove_sliding_iff_clear_line (board : Board)
    (fromRow fromCol toRow toCol : Z) (piece : Piece) (t : PieceType) :
  wf_board board = true ->
  inRange fromRow -> inRange fromCol -> inRange toRow -> inRange toCol ->
  cell board fromRow fromCol = Some piece ->
  type piece = Some t -> sliding t ->
  let between k := (fromRow + k * Z.sgn (toRow - fromRow),
                    fromCol + k * Z.sgn (toCol - fromCol)) in
  (isValidMove board fromRow fromCol toRow toCol = Ok true
   \/ isValidMove board fromRow fromCol toRow toCol = Ok false) /\
  (isValidMove board fromRow fromCol toRow toCol = Ok true <->
   linePattern t fromRow fromCol toRow toCol /\
   forall k, 0 < k < reach fromRow fromCol toRow toCol ->
     cell board (fst (between k)) (snd (between k)) = None) /\
  (isValidMove board fromRow fromCol toRow toCol = Ok true ->
   forall k (blocker : Piece), 0 < k < reach fromRow fromCol toRow toCol ->
     isValidMove
       (setSquare board (fst (between k)) (snd (between k)) (Some blocker))
       fromRow fromCol toRow toCol = Ok false).
Proof.
  intros Hwf Hfr Hfc Htr Htc Hsrc Ht Hsl between. subst between. simpl.
  destruct (isValidMove_sliding board fromRow fromCol toRow toCol piece t
              Hwf Hfr Hfc Htr Htc Hsrc Ht Hsl) as (v & Hv & Hiff).
  rewrite Hv. split; [destruct v; auto|]. split.
  - rewrite <- Hiff. split; [now intros [= ->]|now intros ->].
  - intros [= ->] k blocker Hk.
    assert (Hpat : linePattern t fromRow fromCol toRow toCol) by now apply Hiff.
    assert (Hline : toRow = fromRow \/ toCol = fromCol
                    \/ Z.abs (toRow - fromRow) = Z.abs (toCol - fromCol)).
    { destruct Hsl as [-> | [-> | ->]]; simpl in Hpat; tauto. }
    destruct (between_inRange fromRow fromCol toRow toCol k
                Hfr Hfc Htr Htc Hline Hk) as (Hkr & Hkc & Hne).
    set (r := fromRow + k * Z.sgn (toRow - fromRow)) in *.
    set (c := fromCol + k * Z.sgn (toCol - fromCol)) in *.
    destruct (isValidMove_sliding (setSquare board r c (Some blocker))
                fromRow fromCol toRow toCol piece t) as (v' & Hv' & Hiff');
      try assumption.
    + now apply wf_setSquare.
    + now rewrite cell_setSquare_ne.
    + rewrite Hv'. destruct v'; [|reflexivity].
      destruct Hiff' as [Hclear _]. destruct (Hclear eq_refl) as [_ Hempty].
      specialize (Hempty k Hk). fold r c in Hempty.
      rewrite cell_setSquare_eq in Hempty by assumption. discriminate.
Qed.

Lemma isValidMove_sliding_iff_clear_line_witness :
  isValidMove
    (setSquare (lonePiece queen white 4 1) 2 3 (mk pawn black)) 4 1 1 4
  = Ok false.
Proof.
  refine (proj2 (proj2 (isValidMove_sliding_iff_clear_line
            (lonePiece queen white 4 1) 4 1 1 4
            {| type := Some queen; color := white |} queen
            _ _ _ _ _ _ _ _)) _ 2 _ _);
    try reflexivity; try (unfold inRange; lia);
    try (unfold sliding; auto); try (unfold reach; simpl; lia).
Defined.

(** ** Properties of [getPossibleMoves] *)

(** C3. On a board of the grid with a piece on the source square,
    [getPossibleMoves] returns a list of squares none of which holds a
    piece of the colour of the piece on the source square. *)
Theorem getPossibleMoves_no_own_colour (board : Board) (row col : Z) (piece : Piece) :
  wf_board board = true ->
  cell board row col = Some piece ->
  exists moves, getPossibleMoves board row col = Ok moves /\
    forall r c target, In (r, c) moves ->
      cell board r c = Some target -> color target <> color piece.
Proof.
  intros Hwf Hsrc.
  destruct (cell_Some_range _ _ _ _ Hwf Hsrc) as [Hrow Hcol].
  eexists. split; [now apply getPossibleMoves_wf|].
  intros r c target Hin Hdst.
  apply In_movesBy in Hin as (_ & _ & Hkeep).
  destruct (keepsMove board row col r c) as [[|]| |] eqn:Hk; try discriminate.
  apply keepsMove_true in Hk as [_ [Hnone|(target' & piece' & Ht & Hp & Hne)]];
    congruence.
Qed.

Lemma getPossibleMoves_no_own_colour_witness :
  exists moves, getPossibleMoves initialBoard 7 1 = Ok moves /\
    forall r c target, In (r, c) moves ->
      cell initialBoard r c = Some target ->
      color target <> color {| type := Some knight; color := white |}.
Proof.
  apply getPossibleMoves_no_own_colour; reflexivity.
Defined.

(** C10. On a board of the grid with a piece on the source square, the
    list returned by [getPossibleMoves] never contains the source square,
    although [isValidMove] accepts the zero-displacement move of a king,
    rook, bishop or queen. *)
Theorem getPossibleMoves_excludes_source (board : Board) (row col : Z) (piece : Piece) :
  wf_board board = true ->
  cell board row col = Some piece ->
  (exists moves, getPossibleMoves board row col = Ok moves
                 /\ ~ In (row, col) moves) /\
  (forall t, type piece = Some t -> t = king \/ sliding t ->
     isValidMove board row col row col = Ok true).
Proof.
  intros Hwf Hsrc.
  destruct (cell_Some_range _ _ _ _ Hwf Hsrc) as [Hrow Hcol]. split.
  - eexists. split; [now apply getPossibleMoves_wf|].
    intros Hin. apply In_movesBy in Hin as (_ & _ & Hkeep).
    destruct (keepsMove board row col row col) as [[|]| |] eqn:Hk; try discriminate.
    apply keepsMove_true in Hk as [_ [Hnone|(target' & piece' & Ht & Hp & Hne)]];
      congruence.
  - intros t Ht [->|Hsl].
    + rewrite (isValidMove_king _ _ _ row col _ Hsrc Ht).
      rewrite !Z.sub_diag. reflexivity.
    + destruct (isValidMove_sliding board row col row col piece t)
        as (v & Hv & Hiff); try assumption.
      rewrite Hv. f_equal. apply Hiff. split.
      * destruct Hsl as [-> | [-> | ->]]; simpl; rewrite ?Z.sub_diag; auto.
      * intros k Hk. unfold reach in Hk. lia.
Qed.

Lemma getPossibleMoves_excludes_source_witness :
  exists moves, getPossibleMoves initialBoard 7 0 = Ok moves
                /\ ~ In (7, 0) moves.
Proof.
  apply (getPossibleMoves_excludes_source initialBoard 7 0
           {| type := Some rook; color := white |}); reflexivity.
Defined.

Lemma cell_emptyBoard (r c : Z) : cell emptyBoard r c = None.
Proof.
  unfold cell, index, emptyBoard.
  destruct (0 <=? r); [|reflexivity].
  destruct (replicate 8 (replicate 8 None) !! Z.to_nat r) as [row|] eqn:Hrow;
    [|reflexivity].
  apply lookup_replicate in Hrow as [-> _].
  destruct (0 <=? c); [|reflexivity].
  destruct (replicate 8 None !! Z.to_nat c) as [x|] eqn:Hx; [|reflexivity].
  apply lookup_replicate in Hx as [-> _]. reflexivity.
Qed.

Lemma keepsMove_lone_king (board : Board) (row col r c : Z) (piece : Piece) :
  wf_board board = true ->
  cell board row col = Some piece -> type piece = Some king ->
  (forall r c, inRange r -> inRange c -> (r, c) <> (row, col) ->
     cell board r c = None) ->
  inRange r -> inRange c ->
  keepsMove board row col r c = Ok (kingStep row col r c).
Proof.
  intros Hwf Hsrc Ht Hempty Hr Hc.
  destruct (cell_Some_range _ _ _ _ Hwf Hsrc) as [Hrow Hcol].
  unfold keepsMove, kingStep.
  rewrite (isValidMove_king _ _ _ r c _ Hsrc Ht).
  destruct ((Z.abs (r - row) <=? 1) && (Z.abs (c - col) <=? 1)); simpl;
    [|reflexivity].
  rewrite (readSquare_wf _ r c Hwf Hr). simpl.
  destruct (Z.eqb_spec r row) as [->|Hne]; simpl.
  - destruct (Z.eqb_spec c col) as [->|Hne]; simpl.
    + rewrite Hsrc, (readSquare_cell_Some _ _ _ _ Hsrc). simpl.
      now rewrite PieceColor_eqb_refl.
    + rewrite Hempty; [reflexivity|assumption|assumption|]. intros [= H]. lia.
  - rewrite Hempty; [reflexivity|assumption|assumption|]. intros [= H]. lia.
Qed.

Lemma movesBy_kingStep_count (row col : Z) :
  inRange row -> inRange col ->
  NoDup (movesBy (kingStep row col))
  /\ (3 <= length (movesBy (kingStep row col)) <= 8)%nat.
Proof.
  intros Hrow Hcol.
  apply In_seqZ_8 in Hrow, Hcol. simpl in Hrow, Hcol.
  repeat (destruct Hrow as [<-|Hrow]; [|]); try contradiction;
  repeat (destruct Hcol as [<-|Hcol]; [|]); try contradiction;
  (split; [apply (bool_decide_unpack _); vm_compute; exact I
          | vm_compute; lia]).
Qed.

(** C7. For a king alone on a board of the grid, [getPossibleMoves]
    returns, without repetition, exactly the squares of the grid whose row
    and column each differ from the king's by at most 1, the king's own
    square excluded; they are between 3 and 8. *)
Theorem getPossibleMoves_lone_king (board : Board) (row col : Z) (piece : Piece) :
  wf_board board = true ->
  cell board row col = Some piece -> type piece = Some king ->
  (forall r c, inRange r -> inRange c -> (r, c) <> (row, col) ->
     cell board r c = None) ->
  exists moves, getPossibleMoves board row col = Ok moves /\
    (forall r c, In (r, c) moves <->
       inRange r /\ inRange c /\
       Z.abs (r - row) <= 1 /\ Z.abs (c - col) <= 1 /\ (r, c) <> (row, col)) /\
    NoDup moves /\ (3 <= length moves <= 8)%nat.
Proof.
  intros Hwf Hsrc Ht Hempty.
  destruct (cell_Some_range _ _ _ _ Hwf Hsrc) as [Hrow Hcol].
  exists (movesBy (kingStep row col)). split; [|split].
  - apply getPossibleMoves_scan. intros r c Hr Hc.
    now apply (keepsMove_lone_king board row col r c piece).
  - intros r c. rewrite In_movesBy. unfold kingStep.
    rewrite !andb_true_iff, negb_true_iff, andb_false_iff, !Z.leb_le, !Z.eqb_neq.
    split.
    + intros (Hr & Hc & (Hdr & Hdc) & Hne). repeat (split; [assumption|]).
      intros [= -> ->]. destruct Hne; congruence.
    + intros (Hr & Hc & Hdr & Hdc & Hne). repeat (split; [assumption|]).
      split; [now split|].
      destruct (Z.eq_dec r row) as [->|]; [|now left].
      right. intros ->. now apply Hne.
  - now apply movesBy_kingStep_count.
Qed.

Lemma lonePiece_otherwise_empty (t : PieceType) (c0 : PieceColor) (row col r c : Z) :
  (r, c) <> (row, col) -> cell (lonePiece t c0 row col) r c = None.
Proof.
  intros Hne. unfold lonePiece.
  rewrite cell_setSquare_ne by congruence. apply cell_emptyBoard.
Qed.

Lemma getPossibleMoves_lone_king_witness :
  exists moves, getPossibleMoves (lonePiece king black 0 7) 0 7 = Ok moves /\
    (forall r c, In (r, c) moves <->
       inRange r /\ inRange c /\
       Z.abs (r - 0) <= 1 /\ Z.abs (c - 7) <= 1 /\ (r, c) <> (0, 7)) /\
    NoDup moves /\ (3 <= length moves <= 8)%nat.
Proof.
  apply (getPossibleMoves_lone_king (lonePiece king black 0 7) 0 7
           {| type := Some king; color := black |});
    [reflexivity | reflexivity | reflexivity |].
  intros r c _ _ Hne. now apply lonePiece_otherwise_empty.
Defined.

(** C8. In the initial position [getPossibleMoves] returns, in scan
    order, the squares (4,4) and (5,4) for the white pawn on (6,4), the
    squares (5,0) and (5,2) for the white knight on (7,1), and no square
    for the black rook on (0,0). *)
Theorem getPossibleMoves_initialBoard :
  getPossibleMoves initialBoard 6 4 = Ok [(4, 4); (5, 4)]
  /\ getPossibleMoves initialBoard 7 1 = Ok [(5, 0); (5, 2)]
  /\ getPossibleMoves initialBoard 0 0 = Ok [].
Proof. repeat split; vm_compute; reflexivity. Qed.

(** ** Further properties of [isPathClear] *)





(** X3. On a board of the grid, the walk between two squares of a common
    row, column or diagonal gives the same answer in both directions. *)
Theorem isPathClear_symmetric (board : Board) (fromRow fromCol toRow toCol : Z) :
  wf_board board = true ->
  inRange fromRow -> inRange fromCol -> inRange toRow -> inRange toCol ->
  toRow = fromRow \/ toCol = fromCol
  \/ Z.abs (toRow - fromRow) = Z.abs (toCol - fromCol) ->
  isPathClear board fromRow fromCol toRow toCol
  = isPathClear board toRow toCol fromRow fromCol.
Proof.
  intros Hwf Hfr Hfc Htr Htc Hline.
  destruct (isPathClear_line board fromRow fromCol toRow toCol)
    as (v & Hv & Hiff); try assumption.
  destruct (isPathClear_line board toRow toCol fromRow fromCol)
    as (v' & Hv' & Hiff'); try assumption; [lia|].
  rewrite Hv, Hv'. f_equal.
  assert (Hsame :
    (forall k, 0 < k < reach fromRow fromCol toRow toCol ->
       cell board (fromRow + k * Z.sgn (toRow - fromRow))
                  (fromCol + k * Z.sgn (toCol - fromCol)) = None) <->
    (forall k, 0 < k < reach toRow toCol fromRow fromCol ->
       cell board (toRow + k * Z.sgn (fromRow - toRow))
                  (toCol + k * Z.sgn (fromCol - toCol)) = None)).
  { unfold reach, inRange in *.
    split; intros H k Hk;
      specialize (H (Z.max (Z.abs (toRow - fromRow)) (Z.abs (toCol - fromCol)) - k));
      destruct (Z.sgn_spec (toRow - fromRow)) as [[? Hs]|[[? Hs]|[? Hs]]];
      destruct (Z.sgn_spec (toCol - fromCol)) as [[? Hs']|[[? Hs']|[? Hs']]];
      destruct (Z.sgn_spec (fromRow - toRow)) as [[? Ht]|[[? Ht]|[? Ht]]];
      destruct (Z.sgn_spec (fromCol - toCol)) as [[? Ht']|[[? Ht']|[? Ht']]];
      try lia; rewrite Hs, Hs', Ht, Ht' in *;
      match goal with
      | H : _ -> cell board ?r ?c = None |- cell board ?r' ?c' = None =>
          replace r' with r by lia; replace c' with c by lia; apply H; lia
      end. }
  destruct v, v'; try reflexivity.
  - symmetry. apply Hiff', Hsame, Hiff. reflexivity.
  - apply Hiff, Hsame, Hiff'. reflexivity.
Qed.

Lemma isPathClear_symmetric_witness :
  isPathClear initialBoard 2 0 5 3 = isPathClear initialBoard 5 3 2 0.
Proof.
  apply isPathClear_symmetric;
    first [reflexivity | unfold inRange; lia | right; right; reflexivity].
Defined.

(** ** Further properties of [isValidMove] *)

Lemma keepsMove_raises (board : Board) (row col r c : Z) :
  isValidMove board row col r c = TypeError ->
  keepsMove board row col r c = TypeError.
Proof. intros H. unfold keepsMove. now rewrite H. Qed.

(** X4. When the source row is not a row of the board, [isValidMove]
    raises a [TypeError] for every destination, and so does
    [getPossibleMoves], at its first probe. *)
Theorem source_row_missing_raises (board : Board) (row col : Z) :
  index board row = None ->
  (forall toRow toCol, isValidMove board row col toRow toCol = TypeError) /\
  getPossibleMoves board row col = TypeError.
Proof.
  intros Hrow.
  assert (Hv : forall toRow toCol, isValidMove board row col toRow toCol = TypeError).
  { intros toRow toCol. unfold isValidMove, readSquare. now rewrite Hrow. }
  split; [assumption|].
  unfold getPossibleMoves.
  change (seqZ 0 8) with (0 :: seqZ 1 7). simpl forEach.
  rewrite (keepsMove_raises _ _ _ _ _ (Hv 0 0)). reflexivity.
Qed.

Lemma source_row_missing_raises_witness :
  isValidMove initialBoard 8 0 7 0 = TypeError
  /\ getPossibleMoves initialBoard 8 0 = TypeError.
Proof.
  destruct (source_row_missing_raises initialBoard 8 0 eq_refl) as [Hv Hg].
  split; [apply Hv | exact Hg].
Defined.

(** X5. A pawn asked to step one row in its direction, straight or to an
    adjacent column, onto a row that is not a row of the board makes
    [isValidMove] raise a [TypeError]: the destination is read without a
    bounds check. *)
Theorem isValidMove_pawn_off_board_raises (board : Board)
    (fromRow fromCol toRow toCol : Z) (piece : Piece) :
  cell board fromRow fromCol = Some piece -> type piece = Some pawn ->
  toRow = fromRow + direction (color piece) ->
  Z.abs (toCol - fromCol) <= 1 ->
  index board toRow = None ->
  isValidMove board fromRow fromCol toRow toCol = TypeError.
Proof.
  intros Hsrc Ht Hrow Hcol Hmiss. unfold isValidMove.
  rewrite (readSquare_cell_Some _ _ _ _ Hsrc). simpl. rewrite Ht.
  fold (direction (color piece)). rewrite <- Hrow, Z.eqb_refl.
  unfold readSquare. rewrite Hmiss.
  destruct (Z.eqb_spec fromCol toCol) as [->|Hne]; [reflexivity|].
  replace (Z.abs (toCol - fromCol) =? 1) with true
    by (symmetry; apply Z.eqb_eq; lia).
  reflexivity.
Qed.

Lemma isValidMove_pawn_off_board_raises_witness :
  isValidMove (lonePiece pawn white 0 3) 0 3 (-1) 4 = TypeError.
Proof.
  apply (isValidMove_pawn_off_board_raises (lonePiece pawn white 0 3) 0 3 (-1) 4
           {| type := Some pawn; color := white |});
    first [reflexivity | simpl; lia].
Defined.

(** X6. On any board a pawn move accepted by [isValidMove] is one of three:
    one row in the pawn's direction in its column onto an empty square; two
    rows in its direction in its column from its start row onto an empty
    square; one row in its direction to an adjacent column onto a piece of
    the other colour.  So a pawn never moves back or sideways. *)
Theorem isValidMove_pawn_accepts_only (board : Board)
    (fromRow fromCol toRow toCol : Z) (piece : Piece) :
  cell board fromRow fromCol = Some piece -> type piece = Some pawn ->
  isValidMove board fromRow fromCol toRow toCol = Ok true ->
  (toCol = fromCol /\ toRow = fromRow + direction (color piece)
   /\ cell board toRow toCol = None)
  \/ (toCol = fromCol /\ fromRow = startRow (color piece)
      /\ toRow = fromRow + 2 * direction (color piece)
      /\ cell board toRow toCol = None)
  \/ (Z.abs (toCol - fromCol) = 1 /\ toRow = fromRow + direction (color piece)
      /\ exists target, cell board toRow toCol = Some target
                        /\ color target <> color piece).
Proof.
  intros Hsrc Ht. unfold isValidMove.
  rewrite (readSquare_cell_Some _ _ _ _ Hsrc). simpl. rewrite Ht.
  fold (direction (color piece)). fold (startRow (color piece)).
  unfold readSquare, cell.
  destruct (Z.eqb_spec fromCol toCol) as [->|Hne].
  - destruct (Z.eqb_spec toRow (fromRow + direction (color piece))) as [Hr|Hr]; simpl.
    + destruct (index board toRow) as [drow|]; simpl; [|discriminate].
      destruct (mjoin (index drow toCol)) as [q|] eqn:Hq; simpl.
      * destruct (Z.eqb_spec fromRow (startRow (color piece))); simpl;
          [|discriminate].
        destruct (Z.eqb_spec toRow (fromRow + 2 * direction (color piece)));
          simpl; discriminate.
      * intros _. left. auto.
    + destruct (Z.eqb_spec fromRow (startRow (color piece))) as [Hs|Hs]; simpl;
        [|discriminate].
      destruct (Z.eqb_spec toRow (fromRow + 2 * direction (color piece)))
        as [Hr2|Hr2]; simpl; [|discriminate].
      destruct (index board toRow) as [drow|]; simpl; [|discriminate].
      destruct (mjoin (index drow toCol)) as [q|] eqn:Hq; simpl; [discriminate|].
      intros _. right. left. auto.
  - destruct (Z.eqb_spec (Z.abs (toCol - fromCol)) 1) as [Hc|Hc]; simpl;
      [|discriminate].
    destruct (Z.eqb_spec toRow (fromRow + direction (color piece))) as [Hr|Hr];
      simpl; [|discriminate].
    destruct (index board toRow) as [drow|]; simpl; [|discriminate].
    destruct (mjoin (index drow toCol)) as [q|] eqn:Hq; simpl; [|discriminate].
    destruct (PieceColor_eqb (color q) (color piece)) eqn:E; simpl;
      [discriminate|].
    intros _. right. right. repeat (split; [assumption|]).
    exists q. split; [reflexivity|].
    intros Heq. apply PieceColor_eqb_eq in Heq. congruence.
Qed.

Lemma isValidMove_pawn_accepts_only_witness :
  (4 = 4 /\ 5 = 6 + direction white /\ cell initialBoard 5 4 = None)
  \/ (4 = 4 /\ 6 = startRow white /\ 5 = 6 + 2 * direction white
      /\ cell initialBoard 5 4 = None)
  \/ (Z.abs (4 - 4) = 1 /\ 5 = 6 + direction white
      /\ exists target, cell initialBoard 5 4 = Some target
                        /\ color target <> white).
Proof.
  apply (isValidMove_pawn_accepts_only initialBoard 6 4 5 4
           {| type := Some pawn; color := white |}); reflexivity.
Defined.

(** X7. On a board of the grid, a pawn's step of one row in its direction
    within its column is accepted exactly when the destination square is
    empty: a pawn never captures straight ahead. *)
Theorem isValidMove_pawn_single_step (board : Board) (fromRow fromCol : Z)
    (piece : Piece) :
  wf_board board = true ->
  cell board fromRow fromCol = Some piece -> type piece = Some pawn ->
  inRange (fromRow + direction (color piece)) ->
  isValidMove board fromRow fromCol (fromRow + direction (color piece)) fromCol
  = Ok (negb (truthy (cell board (fromRow + direction (color piece)) fromCol))).
Proof.
  intros Hwf Hsrc Ht Hto.
  destruct (wf_board_row board _ Hwf Hto) as (drow & Hdrow & _).
  rewrite (isValidMove_pawn _ _ _ _ _ _ Hsrc drow Ht Hdrow).
  rewrite !Z.eqb_refl. simpl.
  replace (fromRow + direction (color piece)
           =? fromRow + 2 * direction (color piece)) with false.
  - now rewrite andb_false_r, orb_false_r.
  - symmetry. apply Z.eqb_neq. unfold direction.
    destruct (PieceColor_eqb _ _); lia.
Qed.

Lemma isValidMove_pawn_single_step_witness :
  isValidMove initialBoard 1 2 (1 + direction black) 2
  = Ok (negb (truthy (cell initialBoard (1 + direction black) 2))).
Proof.
  apply (isValidMove_pawn_single_step initialBoard 1 2
           {| type := Some pawn; color := black |});
    first [reflexivity | unfold inRange, direction; simpl; lia].
Defined.

(** ** Further properties of [getPossibleMoves] *)

Lemma scan_filter {A B : Type} (f : A -> B -> bool) (rs : list A) (cs : list B) :
  concat (map (fun r => concat (map (fun c => if f r c then [(r, c)] else []) cs)) rs)
  = List.filter (fun sq => f (fst sq) (snd sq))
      (concat (map (fun r => concat (map (fun c => [(r, c)]) cs)) rs)).
Proof.
  induction rs as [|r rs IH]; [reflexivity|]. simpl.
  rewrite List.filter_app, <- IH. f_equal. clear IH.
  induction cs as [|c cs IHc]; [reflexivity|]. simpl.
  destruct (f r c); simpl; now rewrite IHc.
Qed.

Lemma NoDup_movesBy (f : Z -> Z -> bool) : NoDup (movesBy f).
Proof.
  unfold movesBy. rewrite scan_filter.
  apply NoDup_ListNoDup, List.NoDup_filter, NoDup_ListNoDup.
  apply (bool_decide_unpack _). vm_compute. exact I.
Qed.

Lemma keepsMove_true_iff (board : Board) (row col r c : Z) :
  wf_board board = true -> inRange r ->
  keepsMove board row col r c = Ok true <->
  isValidMove board row col r c = Ok true /\
  (cell board r c = None \/
   exists target piece, cell board r c = Some target /\
     cell board row col = Some piece /\ color target <> color piece).
Proof.
  intros Hwf Hr. split; [apply keepsMove_true|].
  intros [Hv Hdst]. unfold keepsMove. rewrite Hv. simpl.
  rewrite (readSquare_wf _ r c Hwf Hr). simpl.
  destruct Hdst as [->|(target & piece & -> & Hsrc & Hne)]; [reflexivity|].
  rewrite (readSquare_cell_Some _ _ _ _ Hsrc). simpl.
  destruct (PieceColor_eqb (color target) (color piece)) eqn:E; [|reflexivity].
  apply PieceColor_eqb_eq in E. contradiction.
Qed.

(** X8. On a board of the grid and for a source square of the grid,
    [getPossibleMoves] returns a list without repetition that holds a
    square exactly when the square is on the grid, [isValidMove] accepts
    the move to it, and it is empty or holds a piece whose colour differs
    from that of the piece on the source square. *)
Theorem getPossibleMoves_exact (board : Board) (row col : Z) :
  wf_board board = true -> inRange row -> inRange col ->
  exists moves, getPossibleMoves board row col = Ok moves /\
    NoDup moves /\
    forall r c, In (r, c) moves <->
      inRange r /\ inRange c /\
      isValidMove board row col r c = Ok true /\
      (cell board r c = None \/
       exists target piece, cell board r c = Some target /\
         cell board row col = Some piece /\ color target <> color piece).
Proof.
  intros Hwf Hrow Hcol. eexists. split; [now apply getPossibleMoves_wf|].
  split; [apply NoDup_movesBy|].
  intros r c. rewrite In_movesBy. split.
  - intros (Hr & Hc & Hk). repeat (split; [assumption|]).
    apply keepsMove_true_iff; try assumption.
    destruct (keepsMove board row col r c) as [[|]| |]; try discriminate.
    reflexivity.
  - intros (Hr & Hc & Hv & Hdst). repeat (split; [assumption|]).
    assert (Hk : keepsMove board row col r c = Ok true)
      by (apply keepsMove_true_iff; auto).
    now rewrite Hk.
Qed.

Lemma getPossibleMoves_exact_witness :
  exists moves, getPossibleMoves initialBoard 7 6 = Ok moves /\ NoDup moves.
Proof.
  destruct (getPossibleMoves_exact initialBoard 7 6) as (moves & Hm & Hnd & _);
    first [reflexivity | unfold inRange; lia | idtac].
  exists moves. split; assumption.
Defined.

(** X9. On a board of the grid, [getPossibleMoves] for an empty source
    square returns the empty list. *)
Theorem getPossibleMoves_empty_source (board : Board) (row col : Z) :
  wf_board board = true -> inRange row ->
  cell board row col = None ->
  getPossibleMoves board row col = Ok [].
Proof.
  intros Hwf Hrow Hsrc.
  destruct (wf_board_row board row Hwf Hrow) as (srow & Hsrow & _).
  rewrite (getPossibleMoves_scan _ _ _ (fun _ _ => false)); [reflexivity|].
  intros r c _ _. unfold keepsMove.
  now rewrite (isValidMove_empty _ _ _ _ _ _ Hsrow Hsrc).
Qed.

Lemma getPossibleMoves_empty_source_witness :
  getPossibleMoves initialBoard 4 4 = Ok [].
Proof.
  apply getPossibleMoves_empty_source;
    first [reflexivity | unfold inRange; lia].
Defined.

(** ** The board update of [handleSquareClick] *)

Lemma index_lookup {A : Type} (arr : list A) (i : Z) (x : A) :
  index arr i = Some x -> 0 <= i /\ arr !! Z.to_nat i = Some x.
Proof.
  unfold index. destruct (Z.leb_spec 0 i); [|discriminate]. auto.
Qed.

Lemma assignCell_inside (arr : list (option Piece)) (c : Z) (v : option Piece) :
  0 <= c < Z.of_nat (length arr) -> length arr = 8%nat ->
  assignCell arr c v = Some (<[Z.to_nat c := v]> arr).
Proof.
  intros Hc Hlen. unfold assignCell.
  replace (c <? 0) with false by (symmetry; apply Z.ltb_ge; lia).
  replace (4294967295 <=? c) with false by (symmetry; apply Z.leb_gt; lia).
  replace (c <? Z.of_nat (length arr)) with true by (symmetry; apply Z.ltb_lt; lia).
  reflexivity.
Qed.

Lemma setSquare_insert (board : Board) (r c : Z) (row : list (option Piece))
    (v : option Piece) :
  index board r = Some row -> 0 <= c ->
  <[Z.to_nat r := <[Z.to_nat c := v]> row]> board = setSquare board r c v.
Proof.
  intros Hrow Hc. apply index_lookup in Hrow as [Hr Hrow]. unfold setSquare.
  replace (0 <=? r) with true by (symmetry; apply Z.leb_le; lia).
  replace (0 <=? c) with true by (symmetry; apply Z.leb_le; lia). simpl.
  apply list_eq. intros j.
  destruct (decide (Z.to_nat r = j)) as [<-|Hne].
  - rewrite list_lookup_alter_eq, Hrow. simpl.
    apply list_lookup_insert_eq. now apply lookup_lt_Some in Hrow.
  - now rewrite list_lookup_insert_ne, list_lookup_alter_ne.
Qed.

Lemma movePiece_wf (board : Board) (selectedRow selectedCol row col : Z) :
  wf_board board = true ->
  inRange selectedRow -> inRange selectedCol -> inRange row -> inRange col ->
  movePiece board selectedRow selectedCol row col
  = Some (Ok (setSquare (setSquare board row col (cell board selectedRow selectedCol))
                selectedRow selectedCol None)).
Proof.
  intros Hwf Hsr Hsc Hr Hc.
  destruct (wf_board_row board selectedRow Hwf Hsr) as (srow & Hsrow & Hslen).
  destruct (wf_board_row board row Hwf Hr) as (drow & Hdrow & Hdlen).
  unfold movePiece. rewrite Hsrow, Hdrow.
  unfold inRange in *.
  rewrite assignCell_inside by (assumption || lia).
  rewrite (setSquare_insert _ _ _ _ _ Hdrow) by lia.
  replace (mjoin (index srow selectedCol)) with (cell board selectedRow selectedCol)
    by (unfold cell; now rewrite Hsrow).
  set (board1 := setSquare board row col (cell board selectedRow selectedCol)).
  assert (Hwf1 : wf_board board1 = true) by now apply wf_setSquare.
  destruct (wf_board_row board1 selectedRow Hwf1) as (srow1 & Hsrow1 & Hslen1);
    [unfold inRange; lia|].
  rewrite Hsrow1. rewrite assignCell_inside by (assumption || lia).
  now rewrite (setSquare_insert _ _ _ _ _ Hsrow1) by lia.
Qed.

(** X10. On a board of the grid, the board update of [handleSquareClick]
    between two different squares of the grid produces a board of the grid
    on which the destination holds what the source held, the source is
    empty, and every other square is as before. *)
Theorem movePiece_relocates (board : Board) (selectedRow selectedCol row col : Z) :
  wf_board board = true ->
  inRange selectedRow -> inRange selectedCol -> inRange row -> inRange col ->
  (selectedRow, selectedCol) <> (row, col) ->
  exists newBoard,
    movePiece board selectedRow selectedCol row col = Some (Ok newBoard) /\
    wf_board newBoard = true /\
    cell newBoard row col = cell board selectedRow selectedCol /\
    cell newBoard selectedRow selectedCol = None /\
    forall r c, (r, c) <> (row, col) -> (r, c) <> (selectedRow, selectedCol) ->
      cell newBoard r c = cell board r c.
Proof.
  intros Hwf Hsr Hsc Hr Hc Hne. eexists.
  split; [now apply movePiece_wf|].
  split; [now apply wf_setSquare, wf_setSquare|].
  split; [|split].
  - rewrite cell_setSquare_ne by assumption.
    now apply cell_setSquare_eq.
  - apply cell_setSquare_eq; [now apply wf_setSquare|assumption|assumption].
  - intros r c Hd Hs.
    rewrite cell_setSquare_ne by congruence.
    apply cell_setSquare_ne. congruence.
Qed.

Lemma movePiece_relocates_witness :
  exists newBoard,
    movePiece initialBoard 6 4 4 4 = Some (Ok newBoard) /\
    wf_board newBoard = true /\
    cell newBoard 4 4 = cell initialBoard 6 4 /\
    cell newBoard 6 4 = None.
Proof.
  destruct (movePiece_relocates initialBoard 6 4 4 4)
    as (newBoard & Hm & Hwf & Hd & Hs & _);
    first [reflexivity | unfold inRange; lia | discriminate | idtac].
  exists newBoard. repeat split; assumption.
Defined.

(** X11. Applied to one square of the grid as both source and
    destination, the board update empties that square and leaves the
    others alone; [handleSquareClick] never runs it so, since a click on
    the selected square is handled before. *)
Theorem movePiece_same_square_erases (board : Board) (row col : Z) :
  wf_board board = true -> inRange row -> inRange col ->
  exists newBoard,
    movePiece board row col row col = Some (Ok newBoard) /\
    cell newBoard row col = None /\
    forall r c, (r, c) <> (row, col) -> cell newBoard r c = cell board r c.
Proof.
  intros Hwf Hr Hc. eexists. split; [now apply movePiece_wf|]. split.
  - apply cell_setSquare_eq; [now apply wf_setSquare|assumption|assumption].
  - intros r c Hne.
    rewrite cell_setSquare_ne by congruence.
    apply cell_setSquare_ne. congruence.
Qed.

Lemma movePiece_same_square_erases_witness :
  exists newBoard,
    movePiece initialBoard 7 4 7 4 = Some (Ok newBoard) /\
    cell newBoard 7 4 = None.
Proof.
  destruct (movePiece_same_square_erases initialBoard 7 4)
    as (newBoard & Hm & He & _); first [reflexivity | unfold inRange; lia | idtac].
  exists newBoard. split; assumption.
Defined.

(** ** Counting pieces *)

Lemma count_insert (arr : list (option Piece)) (i : nat) (old v : option Piece) :
  arr !! i = Some old ->
  (length (List.filter truthy (<[i := v]> arr)) + Nat.b2n (truthy old)
   = length (List.filter truthy arr) + Nat.b2n (truthy v))%nat.
Proof.
  revert i. induction arr as [|x arr IH]; intros [|i] H; try discriminate.
  - injection H as ->. simpl. destruct (truthy v), (truthy old); simpl; lia.
  - simpl in *. specialize (IH i H).
    destruct (truthy x); simpl; [f_equal|]; exact IH.
Qed.

Lemma countPieces_alter (board : Board) (i : nat) (row : list (option Piece))
    (f : list (option Piece) -> list (option Piece)) :
  board !! i = Some row ->
  (countPieces (alter f i board) + length (List.filter truthy row)
   = countPieces board + length (List.filter truthy (f row)))%nat.
Proof.
  revert i. induction board as [|x board IH]; intros [|i] H; try discriminate.
  - injection H as ->. unfold countPieces. simpl. lia.
  - simpl in H. specialize (IH i H). unfold countPieces in *. simpl.
    change (alter f i board) with (list_alter f i board) in IH. lia.
Qed.

Lemma countPieces_setSquare (board : Board) (r c : Z) (v : option Piece) :
  wf_board board = true -> inRange r -> inRange c ->
  (countPieces (setSquare board r c v) + Nat.b2n (truthy (cell board r c))
   = countPieces board + Nat.b2n (truthy v))%nat.
Proof.
  intros Hwf Hr Hc.
  destruct (wf_board_row board r Hwf Hr) as (row & Hrow & Hlen).
  unfold inRange in *. unfold setSquare, cell. rewrite Hrow.
  apply index_lookup in Hrow as [_ Hrow].
  replace (0 <=? r) with true by (symmetry; apply Z.leb_le; lia).
  replace (0 <=? c) with true by (symmetry; apply Z.leb_le; lia). simpl.
  destruct (index_in_range row c) as [old Hold]; [lia|].
  rewrite Hold. simpl. apply index_lookup in Hold as [_ Hold].
  pose proof (countPieces_alter board (Z.to_nat r) row
                (fun row => <[Z.to_nat c := v]> row) Hrow) as H1.
  pose proof (count_insert row (Z.to_nat c) old v Hold) as H2.
  simpl in H1. lia.
Qed.

(** X12. The board update between two different squares of the grid
    lowers the number of pieces by one when the destination was occupied
    and keeps it otherwise; it never raises it. *)
Theorem movePiece_count (board : Board) (selectedRow selectedCol row col : Z) :
  wf_board board = true ->
  inRange selectedRow -> inRange selectedCol -> inRange row -> inRange col ->
  (selectedRow, selectedCol) <> (row, col) ->
  exists newBoard,
    movePiece board selectedRow selectedCol row col = Some (Ok newBoard) /\
    (countPieces newBoard + Nat.b2n (truthy (cell board row col))
     = countPieces board)%nat.
Proof.
  intros Hwf Hsr Hsc Hr Hc Hne. eexists.
  split; [now apply movePiece_wf|].
  set (moved := cell board selectedRow selectedCol).
  pose proof (countPieces_setSquare board row col moved Hwf Hr Hc) as H1.
  pose proof (countPieces_setSquare (setSquare board row col moved)
                selectedRow selectedCol None
                (wf_setSquare _ _ _ _ Hwf) Hsr Hsc) as H2.
  rewrite cell_setSquare_ne in H2 by congruence.
  fold moved in H2. simpl in H2. lia.
Qed.

Lemma movePiece_count_witness :
  exists newBoard,
    movePiece initialBoard 7 3 1 3 = Some (Ok newBoard) /\
    (countPieces newBoard + Nat.b2n (truthy (cell initialBoard 1 3))
     = countPieces initialBoard)%nat.
Proof.
  apply movePiece_count;
    first [reflexivity | unfold inRange; lia | discriminate].
Defined.

(** ** [handleSquareClick] *)

Lemma isPossibleMove_In (moves : list (Z * Z)) (row col : Z) :
  isPossibleMove moves row col = true <-> In (row, col) moves.
Proof.
  unfold isPossibleMove. rewrite existsb_exists. split.
  - intros ([r c] & Hin & H). apply andb_true_iff in H as [Hr Hc].
    apply Z.eqb_eq in Hr, Hc. now subst.
  - intros Hin. exists (row, col). split; [assumption|].
    now rewrite !Z.eqb_refl.
Qed.


(** The list stored with a selection, in a consistent state. *)
Lemma consistent_moves (st : GameState) (sr sc r c : Z) :
  consistent st -> selectedSquare st = Some (sr, sc) ->
  In (r, c) (possibleMoves st) <->
  inRange r /\ inRange c /\
  isValidMove (board st) sr sc r c = Ok true /\
  forall target, cell (board st) r c = Some target ->
    color target <> currentPlayer st.
Proof.
  intros [Hwf Hsel] Hs. rewrite Hs in Hsel.
  destruct Hsel as (piece & Hsrc & Hcol & Hmoves).
  destruct (cell_Some_range _ _ _ _ Hwf Hsrc) as [Hsr Hsc].
  rewrite (getPossibleMoves_wf _ _ _ Hwf Hsr Hsc) in Hmoves.
  injection Hmoves as <-. rewrite In_movesBy. split.
  - intros (Hr & Hc & Hk). repeat (split; [assumption|]).
    destruct (keepsMove (board st) sr sc r c) as [[|]| |] eqn:Hkeep;
      try discriminate.
    apply keepsMove_true in Hkeep as [Hv Hdst]. split; [assumption|].
    intros target Ht. destruct Hdst as [Hnone|(t' & p' & Ht' & Hp' & Hne)];
      congruence.
  - intros (Hr & Hc & Hv & Hdst). repeat (split; [assumption|]).
    assert (Hk : keepsMove (board st) sr sc r c = Ok true).
    { apply keepsMove_true_iff; try assumption. split; [assumption|].
      destruct (cell (board st) r c) as [target|] eqn:Ht; [|now left].
      right. exists target, piece. repeat split; try assumption.
      rewrite Hcol. now apply Hdst. }
    now rewrite Hk.
Qed.

Lemma selectOrClear_consistent (st : GameState) (row col : Z) :
  wf_board (board st) = true -> inRange row ->
  exists st', selectOrClear st row col = (st', Ok tt) /\ consistent st' /\
    board st' = board st /\ currentPlayer st' = currentPlayer st.
Proof.
  intros Hwf Hrow. unfold selectOrClear.
  rewrite (readSquare_wf _ row col Hwf Hrow).
  destruct (cell (board st) row col) as [piece|] eqn:Hsrc.
  - destruct (PieceColor_eqb (color piece) (currentPlayer st)) eqn:Hcol.
    + destruct (cell_Some_range _ _ _ _ Hwf Hsrc) as [_ Hc].
      rewrite (getPossibleMoves_wf _ _ _ Hwf Hrow Hc).
      eexists. split; [reflexivity|]. unfold consistent. simpl.
      repeat split; try assumption.
      exists piece. apply PieceColor_eqb_eq in Hcol.
      repeat split; try assumption.
      now apply getPossibleMoves_wf.
    + eexists. split; [reflexivity|]. unfold consistent. simpl. auto.
  - eexists. split; [reflexivity|]. unfold consistent. simpl. auto.
Qed.

(** One click on a row of the grid, in a consistent state: the handler
    returns normally into a consistent state, and either keeps board and
    player, or has moved the selected piece by a move of the stored list. *)
Lemma handleSquareClick_step (st : GameState) (row col : Z) :
  consistent st -> inRange row ->
  exists st', handleSquareClick st row col = Some (st', Ok tt) /\
    consistent st' /\
    ((board st' = board st /\ currentPlayer st' = currentPlayer st)
     \/ exists sr sc,
          selectedSquare st = Some (sr, sc) /\ (sr, sc) <> (row, col) /\
          inRange sr /\ inRange sc /\ inRange col /\
          In (row, col) (possibleMoves st) /\
          movePiece (board st) sr sc row col = Some (Ok (board st')) /\
          currentPlayer st' = nextPlayer (currentPlayer st) /\
          selectedSquare st' = None /\ possibleMoves st' = []).
Proof.
  intros Hcons Hrow. pose proof Hcons as [Hwf Hsel].
  unfold handleSquareClick.
  destruct (selectedSquare st) as [[sr sc]|] eqn:Hs.
  - destruct ((row =? sr) && (col =? sc)) eqn:Hsame.
    + eexists. split; [reflexivity|]. unfold consistent. simpl. auto.
    + destruct (isPossibleMove (possibleMoves st) row col) eqn:Hpm.
      * apply isPossibleMove_In in Hpm.
        pose proof (proj1 (consistent_moves st sr sc row col Hcons Hs) Hpm)
          as (_ & Hcol & _).
        destruct Hsel as (piece & Hsrc & _).
        destruct (cell_Some_range _ _ _ _ Hwf Hsrc) as [Hsr Hsc].
        rewrite (movePiece_wf _ _ _ _ _ Hwf Hsr Hsc Hrow Hcol).
        eexists. split; [reflexivity|]. split.
        -- unfold consistent. simpl. split; [|reflexivity].
           now apply wf_setSquare, wf_setSquare.
        -- right. exists sr, sc. simpl. split; [reflexivity|].
           split; [intros [= -> ->]; now rewrite !Z.eqb_refl in Hsame|].
           repeat (split; [assumption|]).
           split; [now apply movePiece_wf|]. auto.
      * destruct (selectOrClear_consistent st row col Hwf Hrow)
          as (st' & Heq & Hc' & Hb & Hp).
        exists st'. rewrite Heq. auto.
  - destruct (selectOrClear_consistent st row col Hwf Hrow)
      as (st' & Heq & Hc' & Hb & Hp).
    exists st'. rewrite Heq. auto.
Qed.

(** X13. In a consistent state (the board is the grid, the selected square
    holds a piece of the player to move and the stored list is the one
    [getPossibleMoves] gives for it, or nothing is selected and the list is
    empty), a click on a row of the grid makes [handleSquareClick] return
    normally, and the state it requests is consistent again. *)
Theorem handleSquareClick_preserves_consistent (st : GameState) (row col : Z) :
  consistent st -> inRange row ->
  exists st', handleSquareClick st row col = Some (st', Ok tt) /\ consistent st'.
Proof.
  intros Hcons Hrow.
  destruct (handleSquareClick_step st row col Hcons Hrow) as (st' & H & Hc & _).
  eauto.
Qed.

Lemma consistent_initialState : consistent initialState.
Proof. split; reflexivity. Qed.

Lemma handleSquareClick_preserves_consistent_witness :
  exists st', handleSquareClick initialState 6 4 = Some (st', Ok tt)
              /\ consistent st'.
Proof.
  apply handleSquareClick_preserves_consistent;
    [exact consistent_initialState | unfold inRange; lia].
Defined.



(** X15. In a consistent state without selection, a click on a piece of
    the player to move selects its square, and a second click on the same
    square gives back the state before the first. *)
Theorem handleSquareClick_select_deselect (st : GameState) (row col : Z)
    (piece : Piece) :
  consistent st -> selectedSquare st = None ->
  cell (board st) row col = Some piece -> color piece = currentPlayer st ->
  exists st1,
    handleSquareClick st row col = Some (st1, Ok tt) /\
    selectedSquare st1 = Some (row, col) /\
    getPossibleMoves (board st) row col = Ok (possibleMoves st1) /\
    handleSquareClick st1 row col = Some (st, Ok tt).
Proof.
  intros [Hwf Hsel] Hnone Hsrc Hcol.
  destruct st as [b sel cp pm]. simpl in *. subst sel pm.
  destruct (cell_Some_range _ _ _ _ Hwf Hsrc) as [Hr Hc].
  unfold handleSquareClick at 1. simpl. unfold selectOrClear. simpl.
  rewrite (readSquare_cell_Some _ _ _ _ Hsrc).
  rewrite Hcol, PieceColor_eqb_refl.
  rewrite (getPossibleMoves_wf _ _ _ Hwf Hr Hc).
  eexists. split; [reflexivity|]. simpl.
  split; [reflexivity|]. split; [reflexivity|].
  unfold handleSquareClick. simpl. now rewrite !Z.eqb_refl.
Qed.

Lemma handleSquareClick_select_deselect_witness :
  exists st1,
    handleSquareClick initialState 7 1 = Some (st1, Ok tt) /\
    selectedSquare st1 = Some (7, 1) /\
    getPossibleMoves (board initialState) 7 1 = Ok (possibleMoves st1) /\
    handleSquareClick st1 7 1 = Some (initialState, Ok tt).
Proof.
  apply (handleSquareClick_select_deselect initialState 7 1
           {| type := Some knight; color := white |});
    [exact consistent_initialState | reflexivity..].
Defined.

(** X16. In a consistent state with a piece selected, a click on another
    piece of the player to move never moves the selected piece onto it: the
    board and the player to move are kept and the clicked piece becomes the
    selection, with its own list of moves. *)
Theorem handleSquareClick_reselects_own_piece (st : GameState) (sr sc row col : Z)
    (piece : Piece) :
  consistent st -> selectedSquare st = Some (sr, sc) ->
  (row, col) <> (sr, sc) ->
  cell (board st) row col = Some piece -> color piece = currentPlayer st ->
  exists moves,
    getPossibleMoves (board st) row col = Ok moves /\
    handleSquareClick st row col
    = Some ({| board := board st; selectedSquare := Some (row, col);
               currentPlayer := currentPlayer st; possibleMoves := moves |},
            Ok tt).
Proof.
  intros Hcons Hs Hne Hsrc Hcol. pose proof Hcons as [Hwf _].
  destruct (cell_Some_range _ _ _ _ Hwf Hsrc) as [Hr Hc].
  eexists. split; [now apply getPossibleMoves_wf|].
  unfold handleSquareClick. rewrite Hs.
  replace ((row =? sr) && (col =? sc)) with false.
  - destruct (isPossibleMove (possibleMoves st) row col) eqn:Hpm.
    + apply isPossibleMove_In in Hpm.
      apply (consistent_moves st sr sc row col Hcons Hs) in Hpm
        as (_ & _ & _ & Hdst).
      exfalso. now apply (Hdst piece).
    + unfold selectOrClear. rewrite (readSquare_cell_Some _ _ _ _ Hsrc).
      rewrite Hcol, PieceColor_eqb_refl.
      now rewrite (getPossibleMoves_wf _ _ _ Hwf Hr Hc).
  - symmetry. apply andb_false_iff.
    destruct (Z.eqb_spec row sr) as [->|]; [right|now left].
    apply Z.eqb_neq. congruence.
Qed.

Lemma handleSquareClick_reselects_own_piece_witness :
  exists moves,
    getPossibleMoves initialBoard 6 3 = Ok moves /\
    handleSquareClick
      {| board := initialBoard; selectedSquare := Some (7, 3);
         currentPlayer := white; possibleMoves := [] |} 6 3
    = Some ({| board := initialBoard; selectedSquare := Some (6, 3);
               currentPlayer := white; possibleMoves := moves |}, Ok tt).
Proof.
  apply (handleSquareClick_reselects_own_piece
           {| board := initialBoard; selectedSquare := Some (7, 3);
              currentPlayer := white; possibleMoves := [] |} 7 3 6 3
           {| type := Some pawn; color := white |});
    try reflexivity; try discriminate.
  split; [reflexivity|]. simpl.
  exists {| type := Some queen; color := white |}.
  repeat split.
Defined.

(** X17. In a consistent state, a click on a row that is not a row of the
    board makes [handleSquareClick] raise a [TypeError] before any setter
    is called: no state update is requested. *)
Theorem handleSquareClick_off_board_raises (st : GameState) (row col : Z) :
  consistent st -> ~ inRange row ->
  handleSquareClick st row col = Some (st, TypeError).
Proof.
  intros Hcons Hrow. pose proof Hcons as [Hwf Hsel].
  assert (Hmiss : index (board st) row = None).
  { destruct (index (board st) row) as [x|] eqn:E; [|reflexivity].
    apply index_Some_range in E. rewrite (wf_board_length _ Hwf) in E.
    exfalso. apply Hrow. unfold inRange. lia. }
  assert (Hlast : selectOrClear st row col = (st, TypeError)).
  { unfold selectOrClear, readSquare. now rewrite Hmiss. }
  unfold handleSquareClick.
  destruct (selectedSquare st) as [[sr sc]|] eqn:Hs; [|now rewrite Hlast].
  destruct Hsel as (piece & Hsrc & _).
  destruct (cell_Some_range _ _ _ _ Hwf Hsrc) as [Hsr _].
  replace ((row =? sr) && (col =? sc)) with false.
  - destruct (isPossibleMove (possibleMoves st) row col) eqn:Hpm;
      [|now rewrite Hlast].
    apply isPossibleMove_In in Hpm.
    apply (consistent_moves st sr sc row col Hcons Hs) in Hpm as (Hr & _).
    contradiction.
  - symmetry. apply andb_false_iff. left. apply Z.eqb_neq.
    intros ->. contradiction.
Qed.

Lemma handleSquareClick_off_board_raises_witness :
  handleSquareClick initialState 8 0 = Some (initialState, TypeError).
Proof.
  apply handleSquareClick_off_board_raises;
    [exact consistent_initialState | unfold inRange; lia].
Defined.




(** ** Highlighting and square colours *)







(** ** [isValidMove] on the grid *)

(** X21. On a board of the grid, with source and destination on the grid,
    [isValidMove] raises no exception: it returns a boolean. *)
Theorem isValidMove_grid_returns (board : Board) (fromRow fromCol toRow toCol : Z) :
  wf_board board = true ->
  inRange fromRow -> inRange fromCol -> inRange toRow -> inRange toCol ->
  isValidMove board fromRow fromCol toRow toCol = Ok true
  \/ isValidMove board fromRow fromCol toRow toCol = Ok false.
Proof.
  intros Hwf Hfr Hfc Htr Htc.
  destruct (isValidMove_total board fromRow fromCol toRow toCol
              Hwf Hfr Hfc Htr Htc) as [[|] Hv]; auto.
Qed.

Lemma isValidMove_grid_returns_witness :
  isValidMove initialBoard 0 0 7 7 = Ok true
  \/ isValidMove initialBoard 0 0 7 7 = Ok false.
Proof.
  apply isValidMove_grid_returns; first [reflexivity | unfold inRange; lia].
Defined.

Lemma sliding_replaced (board : Board) (fromRow fromCol toRow toCol : Z)
    (t : PieceType) (c : PieceColor) :
  wf_board board = true ->
  inRange fromRow -> inRange fromCol -> inRange toRow -> inRange toCol ->
  sliding t ->
  isValidMove (setSquare board fromRow fromCol (mk t c))
    fromRow fromCol toRow toCol = Ok true <->
  linePattern t fromRow fromCol toRow toCol /\
  forall k, 0 < k < reach fromRow fromCol toRow toCol ->
    cell board (fromRow + k * Z.sgn (toRow - fromRow))
               (fromCol + k * Z.sgn (toCol - fromCol)) = None.
Proof.
  intros Hwf Hfr Hfc Htr Htc Hsl.
  destruct (isValidMove_sliding (setSquare board fromRow fromCol (mk t c))
              fromRow fromCol toRow toCol
              {| type := Some t; color := c |} t) as (v & Hv & Hiff);
    try assumption; try reflexivity.
  { now apply wf_setSquare. }
  { now apply cell_setSquare_eq. }
  rewrite Hv. split.
  - intros [= ->]. destruct Hiff as [Hiff _].
    destruct (Hiff eq_refl) as [Hpat Hclear]. split; [assumption|].
    intros k Hk. rewrite <- (Hclear k Hk). symmetry.
    apply cell_setSquare_ne.
    assert (Hline : toRow = fromRow \/ toCol = fromCol
                    \/ Z.abs (toRow - fromRow) = Z.abs (toCol - fromCol))
      by (destruct Hsl as [-> | [-> | ->]]; simpl in Hpat; tauto).
    destruct (between_inRange fromRow fromCol toRow toCol k
                Hfr Hfc Htr Htc Hline Hk) as (_ & _ & Hne).
    congruence.
  - intros [Hpat Hclear]. f_equal. apply Hiff. split; [assumption|].
    intros k Hk. rewrite <- (Hclear k Hk).
    apply cell_setSquare_ne.
    assert (Hline : toRow = fromRow \/ toCol = fromCol
                    \/ Z.abs (toRow - fromRow) = Z.abs (toCol - fromCol))
      by (destruct Hsl as [-> | [-> | ->]]; simpl in Hpat; tauto).
    destruct (between_inRange fromRow fromCol toRow toCol k
                Hfr Hfc Htr Htc Hline Hk) as (_ & _ & Hne).
    congruence.
Qed.

(** X22. On a board of the grid, [isValidMove] accepts a move for a queen
    exactly when it accepts it for a rook or for a bishop standing on the
    same square of the same board. *)
Theorem isValidMove_queen_rook_or_bishop (board : Board)
    (fromRow fromCol toRow toCol : Z) (c : PieceColor) :
  wf_board board = true ->
  inRange fromRow -> inRange fromCol -> inRange toRow -> inRange toCol ->
  let place t := setSquare board fromRow fromCol (mk t c) in
  isValidMove (place queen) fromRow fromCol toRow toCol = Ok true <->
  isValidMove (place rook) fromRow fromCol toRow toCol = Ok true
  \/ isValidMove (place bishop) fromRow fromCol toRow toCol = Ok true.
Proof.
  intros Hwf Hfr Hfc Htr Htc place. subst place. simpl.
  rewrite !sliding_replaced by (assumption || (unfold sliding; auto)).
  simpl. tauto.
Qed.

Lemma isValidMove_queen_rook_or_bishop_witness :
  isValidMove (setSquare initialBoard 4 4 (mk queen white)) 4 4 2 2 = Ok true <->
  isValidMove (setSquare initialBoard 4 4 (mk rook white)) 4 4 2 2 = Ok true
  \/ isValidMove (setSquare initialBoard 4 4 (mk bishop white)) 4 4 2 2 = Ok true.
Proof.
  apply (isValidMove_queen_rook_or_bishop initialBoard 4 4 2 2 white);
    first [reflexivity | unfold inRange; lia].
Defined.
